(** * TinyNetworkProxyless: the NAS-Bench-201 search supernetwork

    A shallow embedding of
    [lib/models/cell_searchs/search_model_proxyless.py]: the layer plan and
    the construction loop, the categorical relaxation with its retry loop,
    genotype decoding, the forward dispatch over the cell stack and the
    enumeration of the network weights.

    Tensor entries are IEEE-like scalars: a finite value (an exact rational,
    kept in lowest terms by every operation), the two infinities, or
    not-a-number.  Rounding and overflow of finite values are not modelled. *)

From Stdlib Require Import ZArith QArith Lia.
From stdpp Require Import base option list strings gmap pretty.

(** ** Scalars and tensors *)

Inductive fval : Type :=
| Finite (q : Q)
| PosInf
| NegInf
| NaN.

Definition tensor : Type := list (list fval).

Definition fzero : fval := Finite 0.
Definition fone : fval := Finite 1.

(** [torch.isinf], [torch.isnan] on one entry. *)
Definition isinf (x : fval) : bool :=
  match x with PosInf | NegInf => true | _ => false end.

Definition isnan (x : fval) : bool :=
  match x with NaN => true | _ => false end.

Definition fadd (x y : fval) : fval :=
  match x, y with
  | NaN, _ | _, NaN => NaN
  | PosInf, NegInf | NegInf, PosInf => NaN
  | PosInf, _ | _, PosInf => PosInf
  | NegInf, _ | _, NegInf => NegInf
  | Finite a, Finite b => Finite (Qred (a + b))
  end.

Definition fsub (x y : fval) : fval :=
  match x, y with
  | NaN, _ | _, NaN => NaN
  | PosInf, PosInf | NegInf, NegInf => NaN
  | PosInf, _ | _, NegInf => PosInf
  | NegInf, _ | _, PosInf => NegInf
  | Finite a, Finite b => Finite (Qred (a - b))
  end.

Definition fmul (x y : fval) : fval :=
  match x, y with
  | NaN, _ | _, NaN => NaN
  | Finite a, Finite b => Finite (Qred (a * b))
  | Finite a, PosInf | PosInf, Finite a =>
      if Qeq_bool a 0 then NaN else if Qle_bool 0 a then PosInf else NegInf
  | Finite a, NegInf | NegInf, Finite a =>
      if Qeq_bool a 0 then NaN else if Qle_bool 0 a then NegInf else PosInf
  | PosInf, PosInf | NegInf, NegInf => PosInf
  | PosInf, NegInf | NegInf, PosInf => NaN
  end.

Definition fdiv (x y : fval) : fval :=
  match x, y with
  | NaN, _ | _, NaN => NaN
  | Finite a, Finite b =>
      if Qeq_bool b 0
      then (if Qeq_bool a 0 then NaN else if Qle_bool 0 a then PosInf else NegInf)
      else Finite (Qred (a / b))
  | Finite _, (PosInf | NegInf) => Finite 0
  | PosInf, Finite b => if Qle_bool 0 b then PosInf else NegInf
  | NegInf, Finite b => if Qle_bool 0 b then NegInf else PosInf
  | (PosInf | NegInf), (PosInf | NegInf) => NaN
  end.

(** The order [argmax] and [max] use: not-a-number counts as the greatest
    value, as in torch. *)
Definition fltb (x y : fval) : bool :=
  match x, y with
  | NaN, _ => false
  | _, NaN => true
  | PosInf, _ => false
  | _, PosInf => true
  | _, NegInf => false
  | NegInf, _ => true
  | Finite a, Finite b => negb (Qle_bool b a)
  end.

Definition fsum (row : list fval) : fval := fold_left fadd row fzero.

(** [t.any()] of an elementwise test. *)
Definition tensor_any (p : fval -> bool) (t : tensor) : bool :=
  existsb (existsb p) t.

Definition zeros_like (t : tensor) : tensor :=
  map (fun row => map (fun _ => fzero) row) t.

Definition tsub (a b : tensor) : tensor := zip_with (zip_with fsub) a b.
Definition tadd (a b : tensor) : tensor := zip_with (zip_with fadd) a b.
Definition tscale (k : fval) (a : tensor) : tensor := map (map (fmul k)) a.

(** One row of [t.scatter_(-1, index, v)]: the entry at the column the index
    names is overwritten; a column out of range raises. *)
Definition scatter_row (row : list fval) (c : nat) (v : fval) : option (list fval) :=
  if decide (c < length row)%nat then Some (<[c := v]> row) else None.

(** [t.scatter_(-1, index, v)] with an index of one column per row.  Rows the
    index does not reach stay as they are; an index with more rows than [t]
    raises. *)
Fixpoint scatter_ (t : tensor) (index : list nat) (v : fval) : option tensor :=
  match index with
  | [] => Some t
  | c :: index' =>
      match t with
      | [] => None
      | row :: t' =>
          match scatter_row row c v with
          | None => None
          | Some row' =>
              match scatter_ t' index' v with
              | None => None
              | Some rest => Some (row' :: rest)
              end
          end
      end
  end.

(** The first position of the greatest entry of the rest of a row, given the
    best position and value so far. *)
Fixpoint argmax_from (best_i : nat) (best : fval) (i : nat) (row : list fval) : nat :=
  match row with
  | [] => best_i
  | x :: row' =>
      if fltb best x then argmax_from i x (S i) row'
      else argmax_from best_i best (S i) row'
  end.

(** [row.argmax()]; an empty row raises. *)
Definition argmax (row : list fval) : option nat :=
  match row with
  | [] => None
  | x :: row' => Some (argmax_from 0 x 1 row')
  end.

(** [t.max(-1, keepdim=True)[1]]: the arg-max column of every row. *)
Definition max_index (t : tensor) : option (list nat) := mapM argmax t.

(** ** The tensor library's primitives that are taken as given

    [expq] is the exponential on finite values; [rng] is the state of the
    random generator; [draw] draws one category from one row of
    probabilities (one row of [torch.multinomial(probs, 1)]), and raises on
    a row it refuses; [randn] is [torch.randn(rows, cols)]. *)
Class Torch : Type := {
  expq : Q -> Q;
  rng : Type;
  draw : list fval -> rng -> option nat * rng;
  randn : nat -> nat -> rng -> tensor * rng;
}.

(** What a Python call does: return, raise, or (for a loop given too little
    fuel) still be running. *)
Inductive outcome (A : Type) : Type :=
| Returned (a : A)
| Raised
| Running.
Arguments Returned {A} a.
Arguments Raised {A}.
Arguments Running {A}.

Definition outcome_map {A B : Type} (f : A -> B) (o : outcome A) : outcome B :=
  match o with
  | Returned a => Returned (f a)
  | Raised => Raised
  | Running => Running
  end.

(** The values one accepted pass of the sampling loop leaves behind. *)
Record sampled : Type := {
  s_probs : tensor;
  s_index : list nat;
  s_one_h : tensor;
  s_hardwts : tensor;
}.

Section Relaxation.
Context `{Torch}.

Definition fexp (x : fval) : fval :=
  match x with
  | Finite q => Finite (Qred (expq q))
  | PosInf => PosInf
  | NegInf => Finite 0
  | NaN => NaN
  end.

Definition softmax_row (row : list fval) : list fval :=
  let e := map fexp row in
  let s := fsum e in
  map (fun x => fdiv x s) e.

(** [nn.functional.softmax(t, dim=1)]. *)
Definition softmax (t : tensor) : tensor := map softmax_row t.

(** [torch.multinomial(probs, 1)]: one draw per row, rows in order. *)
Fixpoint multinomial (probs : tensor) (g : rng) : option (list nat) * rng :=
  match probs with
  | [] => (Some [], g)
  | row :: probs' =>
      match draw row g with
      | (None, g') => (None, g')
      | (Some c, g') =>
          match multinomial probs' g' with
          | (None, g'') => (None, g'')
          | (Some cs, g'') => (Some (c :: cs), g'')
          end
      end
  end.

(** The retry loop of [forward] (lines 110-118) and of [sample_weights]
    (lines 81-90); [fuel] bounds the number of passes. *)
Fixpoint sample (fuel : nat) (arch_parameters : tensor) (g : rng)
  : outcome (sampled * rng) :=
  match fuel with
  | O => Running
  | S fuel' =>
      let probs := softmax arch_parameters in
      match multinomial probs g with
      | (None, _) => Raised
      | (Some index, g') =>
          match scatter_ (zeros_like probs) index fone with
          | None => Raised
          | Some one_h =>
              let hardwts := tadd (tsub one_h probs) probs in
              if tensor_any isinf probs || tensor_any isnan probs
              then sample fuel' arch_parameters g'
              else Returned ({| s_probs := probs; s_index := index;
                                s_one_h := one_h; s_hardwts := hardwts |}, g')
          end
      end
  end.

(** [sample_weights(n)]: [n] accepted draws, the one-hot matrices only. *)
Fixpoint sample_weights_loop (fuel : nat) (arch_parameters : tensor) (n : nat)
  (sampled_weights : list tensor) (g : rng) : outcome (list tensor * rng) :=
  match n with
  | O => Returned (sampled_weights, g)
  | S n' =>
      match sample fuel arch_parameters g with
      | Returned (s, g') =>
          sample_weights_loop fuel arch_parameters n'
            (sampled_weights ++ [s_one_h s]) g'
      | Raised => Raised
      | Running => Running
      end
  end.

Definition sample_weights (fuel : nat) (arch_parameters : tensor) (n : Z) (g : rng)
  : outcome (list tensor * rng) :=
  sample_weights_loop fuel arch_parameters (Z.to_nat n) [] g.

End Relaxation.

(** ** Modules and parameters

    A parameter object is known by its identity; [pid] stands for Python's
    [id()].  Every constructor takes identities for the parameters it
    creates from a counter, so that an object created later is distinct from
    every object created before. *)

Definition pid : Type := nat.

Record Param : Type := {
  p_id : pid;
  p_data : tensor;
}.

Definition fresh (n : nat) (next : pid) : list pid * pid :=
  (seq next n, (next + n)%nat).

(** The [torch.nn] layers the network creates itself, each with the
    identities of its own parameters.  Their constructors always build here:
    the sizes torch refuses (a negative width) are not modelled, so nothing
    below concludes that a construction succeeds. *)
Inductive Layer : Type :=
| Conv2d (in_channels out_channels kernel_size padding : Z) (ps : list pid)
| BatchNorm2d (num_features : Z) (ps : list pid)
| ReLU
| AdaptiveAvgPool2d (output_size : Z)
| Linear (in_features out_features : Z) (ps : list pid).

(** [nn.Conv2d(.., bias=False)]: the weight only. *)
Definition new_Conv2d (cin cout k pad : Z) (next : pid) : Layer * pid :=
  let (ps, next') := fresh 1 next in (Conv2d cin cout k pad ps, next').

(** [nn.BatchNorm2d(C)], affine by default: weight and bias. *)
Definition new_BatchNorm2d (c : Z) (next : pid) : Layer * pid :=
  let (ps, next') := fresh 2 next in (BatchNorm2d c ps, next').

(** [nn.Linear(i, o)]: weight and bias. *)
Definition new_Linear (i o : Z) (next : pid) : Layer * pid :=
  let (ps, next') := fresh 2 next in (Linear i o ps, next').

(** [layer.parameters()]. *)
Definition parameters (l : Layer) : list pid :=
  match l with
  | Conv2d _ _ _ _ ps | BatchNorm2d _ ps | Linear _ _ ps => ps
  | ReLU | AdaptiveAvgPool2d _ => []
  end.

(** [nn.Sequential(..).parameters()]. *)
Definition seq_parameters (ls : list Layer) : list pid :=
  concat (map parameters ls).

(** The arguments the two cell classes are built from. *)
Record SearchCellArgs : Type := {
  sc_C_in : Z;
  sc_C_out : Z;
  sc_stride : Z;
  sc_max_nodes : Z;
  sc_op_names : list string;
  sc_size : Q;
  sc_affine : bool;
  sc_track_running_stats : bool;
}.

Record ResNetBasicblockArgs : Type := {
  rb_inplanes : Z;
  rb_planes : Z;
  rb_stride : Z;
}.

Inductive Cell : Type :=
| SearchCell (a : SearchCellArgs) (ps : list pid)
| ResNetBasicblock (a : ResNetBasicblockArgs) (ps : list pid).

(** [isinstance(cell, SearchCell)]. *)
Definition is_SearchCell (cell : Cell) : bool :=
  match cell with SearchCell _ _ => true | ResNetBasicblock _ _ => false end.

Definition cell_parameters (cell : Cell) : list pid :=
  match cell with SearchCell _ ps | ResNetBasicblock _ ps => ps end.

(** [nn.ModuleList(..).parameters()]. *)
Definition cells_parameters (cells : list Cell) : list pid :=
  concat (map cell_parameters cells).

(** ** The collaborators taken as given

    The cell classes and the layers' forward maps are not part of this
    file.  A cell's attributes are read off the arguments it was built
    from; [feature] is the type of feature maps.  The forward maps are
    functions of their arguments: what the real modules raise on shapes
    they refuse is not modelled. *)
Class Collaborators : Type := {
  feature : Type;
  num_edges : SearchCellArgs -> nat;
  cell_edge2index : SearchCellArgs -> gmap string nat;
  search_out_dim : SearchCellArgs -> Z;
  search_nparams : SearchCellArgs -> nat;
  res_out_dim : ResNetBasicblockArgs -> Z;
  res_nparams : ResNetBasicblockArgs -> nat;
  forward_gdas : Cell -> feature -> tensor -> list nat -> feature;
  forward_gdas_const : Cell -> feature -> tensor -> list nat -> feature * fval;
  cell_forward : Cell -> feature -> feature;
  layer_forward : Layer -> feature -> feature;
  view_flat : feature -> feature;
}.

(** ** The layer plan (lines 24-26) *)

Definition layer_channels (C N : Z) : list Z :=
  replicate (Z.to_nat N) C ++ [C * 2]%Z ++ replicate (Z.to_nat N) (C * 2)%Z
    ++ [C * 4]%Z ++ replicate (Z.to_nat N) (C * 4)%Z.

Definition layer_reductions (N : Z) : list bool :=
  replicate (Z.to_nat N) false ++ [true] ++ replicate (Z.to_nat N) false
    ++ [true] ++ replicate (Z.to_nat N) false.

(** [inp_size / d] is Python's true division. *)
Definition size_div (inp_size : Z) (d : Z) : Q :=
  Qred (inject_Z inp_size / inject_Z d).

Definition layer_sizes (inp_size N : Z) : list Q :=
  replicate (Z.to_nat N) (inject_Z inp_size) ++ [size_div inp_size 2]
    ++ replicate (Z.to_nat N) (size_div inp_size 2)
    ++ [size_div inp_size 4] ++ replicate (Z.to_nat N) (size_div inp_size 4).

Definition plan_entry : Type := Z * bool * Q.

(** [zip(layer_channels, layer_reductions, layer_sizes)]. *)
Definition layer_plan (C N inp_size : Z) : list plan_entry :=
  zip_with (fun c rs => (c, fst rs, snd rs)) (layer_channels C N)
    (zip (layer_reductions N) (layer_sizes inp_size N)).

(** The plan the specification words describe: three groups of [N] normal
    cells followed by one reduction. *)
Definition spec_three_groups (N : Z) : list bool :=
  concat (replicate 3 (replicate (Z.to_nat N) false ++ [true])).

(** ** The network object *)

Record TinyNetworkProxyless : Type := {
  _C : Z;
  _layerN : Z;
  max_nodes : Z;
  stem : list Layer;
  cells : list Cell;
  op_names : list string;
  _Layer : nat;
  edge2index : option (gmap string nat);
  lastact : list Layer;
  global_pooling : Layer;
  classifier : Layer;
  arch_parameters : Param;
  tau : Z;
  const : bool;
}.

(** The variables of the construction loop (lines 28-38). *)
Record build_state : Type := {
  C_prev : Z;
  b_num_edge : option nat;
  b_edge2index : option (gmap string nat);
  b_cells : list Cell;
  b_next : pid;
}.

Section Construction.
Context `{Torch} `{Collaborators}.

(** [cell.out_dim]. *)
Definition out_dim (cell : Cell) : Z :=
  match cell with
  | SearchCell a _ => search_out_dim a
  | ResNetBasicblock a _ => res_out_dim a
  end.

Definition new_SearchCell (a : SearchCellArgs) (next : pid) : Cell * pid :=
  let (ps, next') := fresh (search_nparams a) next in (SearchCell a ps, next').

Definition new_ResNetBasicblock (a : ResNetBasicblockArgs) (next : pid) : Cell * pid :=
  let (ps, next') := fresh (res_nparams a) next in (ResNetBasicblock a ps, next').

(** The assertion of line 36, for a cell built from [a]. *)
Definition agrees (num_edge : nat) (edge2index : option (gmap string nat))
  (a : SearchCellArgs) : Prop :=
  num_edge = num_edges a /\ edge2index = Some (cell_edge2index a).

#[global] Instance agrees_dec n m a : Decision (agrees n m a).
Proof. unfold agrees. apply _. Defined.

(** The arguments of the [SearchCell] call of line 34. *)
Definition search_args (st : build_state) (max_nodes : Z) (search_space : list string)
  (affine track_running_stats : bool) (C_curr : Z) (size : Q) : SearchCellArgs :=
  {| sc_C_in := C_prev st; sc_C_out := C_curr; sc_stride := 1;
     sc_max_nodes := max_nodes; sc_op_names := search_space;
     sc_size := size; sc_affine := affine;
     sc_track_running_stats := track_running_stats |}.

(** The loop variables before the first pass (line 28). *)
Definition initial_state (C : Z) (next : pid) : build_state :=
  {| C_prev := C; b_num_edge := None; b_edge2index := None;
     b_cells := []; b_next := next |}.

(** One pass of the loop body (lines 31-38); [None] is the failed
    assertion. *)
Definition build_step (max_nodes : Z) (search_space : list string)
  (affine track_running_stats : bool) (st : build_state) (entry : plan_entry)
  : option build_state :=
  let '(C_curr, reduction, size) := entry in
  if reduction : bool then
    let (cell, next') :=
      new_ResNetBasicblock
        {| rb_inplanes := C_prev st; rb_planes := C_curr; rb_stride := 2 |}
        (b_next st) in
    Some {| C_prev := out_dim cell; b_num_edge := b_num_edge st;
            b_edge2index := b_edge2index st;
            b_cells := b_cells st ++ [cell]; b_next := next' |}
  else
    let a := search_args st max_nodes search_space affine track_running_stats
               C_curr size in
    let (cell, next') := new_SearchCell a (b_next st) in
    match b_num_edge st with
    | None =>
        Some {| C_prev := out_dim cell; b_num_edge := Some (num_edges a);
                b_edge2index := Some (cell_edge2index a);
                b_cells := b_cells st ++ [cell]; b_next := next' |}
    | Some num_edge =>
        if decide (agrees num_edge (b_edge2index st) a)
        then Some {| C_prev := out_dim cell; b_num_edge := b_num_edge st;
                     b_edge2index := b_edge2index st;
                     b_cells := b_cells st ++ [cell]; b_next := next' |}
        else None
    end.

Fixpoint build_cells (max_nodes : Z) (search_space : list string)
  (affine track_running_stats : bool) (plan : list plan_entry) (st : build_state)
  : option build_state :=
  match plan with
  | [] => Some st
  | entry :: plan' =>
      match build_step max_nodes search_space affine track_running_stats st entry with
      | None => None
      | Some st' =>
          build_cells max_nodes search_space affine track_running_stats plan' st'
      end
  end.

(** [TinyNetworkProxyless.__init__]; [None] when construction raises.  The
    counter [next] and the generator state [g] are threaded through. *)
Definition construct (C N max_nodes num_classes : Z) (search_space : list string)
  (affine track_running_stats : bool) (inp_size : Z) (next : pid) (g : rng)
  : option (TinyNetworkProxyless * pid * rng) :=
  let (conv, next) := new_Conv2d 3 C 3 1 next in
  let (bn, next) := new_BatchNorm2d C next in
  let stem := [conv; bn] in
  match build_cells max_nodes search_space affine track_running_stats
          (layer_plan C N inp_size) (initial_state C next) with
  | None => None
  | Some st =>
      let (bn_last, next) := new_BatchNorm2d (C_prev st) (b_next st) in
      let (fc, next) := new_Linear (C_prev st) num_classes next in
      match b_num_edge st with
      | None => None
      | Some num_edge =>
          let (noise, g') := randn num_edge (length search_space) g in
          let (ps, next) := fresh 1 next in
          Some ({| _C := C; _layerN := N; max_nodes := max_nodes;
                   stem := stem; cells := b_cells st;
                   op_names := search_space;
                   _Layer := length (b_cells st);
                   edge2index := b_edge2index st;
                   lastact := [bn_last; ReLU];
                   global_pooling := AdaptiveAvgPool2d 1;
                   classifier := fc;
                   arch_parameters :=
                     {| p_id := hd O ps;
                        p_data := tscale (Finite (1 # 1000)) noise |};
                   tau := 10;
                   const := negb (inp_size =? 0)%Z |}, next, g')
      end
  end.

End Construction.

(** ** Weights and architecture parameters (lines 49-62) *)

Definition get_weights (self : TinyNetworkProxyless) : list pid :=
  ((seq_parameters (stem self) ++ cells_parameters (cells self))
     ++ (seq_parameters (lastact self) ++ parameters (global_pooling self)))
    ++ parameters (classifier self).

Definition get_alphas (self : TinyNetworkProxyless) : list Param :=
  [arch_parameters self].

(** ** Genotype decoding (lines 93-107) *)

(** ['{:}<-{:}'.format(i, j)]. *)
Definition node_str (i j : Z) : string :=
  pretty i +:+ "<-" +:+ pretty j.

(** The matrix [genotype] reads: the live parameters, or the override. *)
Definition decoded_matrix (self : TinyNetworkProxyless) (w : option tensor) : tensor :=
  match w with
  | None => p_data (arch_parameters self)
  | Some w => w
  end.

(** The body of the inner loop for the edge [i<-j]; [None] when a lookup
    raises. *)
Definition genotype_edge (self : TinyNetworkProxyless) (w : option tensor)
  (i j : Z) : option (string * Z) :=
  m ← edge2index self;
  r ← m !! node_str i j;
  weights ← decoded_matrix self w !! r;
  c ← argmax weights;
  op_name ← op_names self !! c;
  Some (op_name, j).

Definition genotype (self : TinyNetworkProxyless) (w : option tensor)
  : option (list (list (string * Z))) :=
  mapM (fun i => mapM (genotype_edge self w i) (seqZ 0 i))
    (seqZ 1 (max_nodes self - 1)).

(** ** The forward pass (lines 109-138) *)

Inductive branch : Type :=
| GdasPlain
| GdasConst
| GdasExternal
| FixedBlock.

Definition is_None {A : Type} (o : option A) : bool :=
  match o with None => true | Some _ => false end.

(** The conditions of the [if]/[elif] chain of lines 123-132, in order. *)
Definition select_branch (cell : Cell) (weights : option tensor) (const : bool)
  : branch :=
  if is_SearchCell cell && is_None weights && negb const then GdasPlain
  else if is_SearchCell cell && is_None weights then GdasConst
  else if is_SearchCell cell then GdasExternal
  else FixedBlock.

(** The variables the loop over the cells carries. *)
Record pass_state `{Collaborators} : Type := {
  ps_feature : feature;
  ps_full_cost : list fval;
  ps_index : list nat;
}.

Section Forward.
Context `{Torch} `{Collaborators}.

Definition seq_forward (ls : list Layer) (x : feature) : feature :=
  fold_left (fun x l => layer_forward l x) ls x.

Definition cell_step (self : TinyNetworkProxyless) (weights : option tensor)
  (hardwts : tensor) (st : pass_state) (cell : Cell) : option pass_state :=
  match select_branch cell weights (const self) with
  | GdasPlain =>
      Some {| ps_feature := forward_gdas cell (ps_feature st) hardwts (ps_index st);
              ps_full_cost := ps_full_cost st;
              ps_index := ps_index st |}
  | GdasConst =>
      let (feature', cost) :=
        forward_gdas_const cell (ps_feature st) hardwts (ps_index st) in
      Some {| ps_feature := feature';
              ps_full_cost := ps_full_cost st ++ [cost];
              ps_index := ps_index st |}
  | GdasExternal =>
      w ← weights;
      index ← max_index w;
      Some {| ps_feature := forward_gdas cell (ps_feature st) w index;
              ps_full_cost := ps_full_cost st;
              ps_index := index |}
  | FixedBlock =>
      Some {| ps_feature := cell_forward cell (ps_feature st);
              ps_full_cost := ps_full_cost st;
              ps_index := ps_index st |}
  end.

Fixpoint run_cells (self : TinyNetworkProxyless) (weights : option tensor)
  (hardwts : tensor) (cs : list Cell) (st : pass_state) : option pass_state :=
  match cs with
  | [] => Some st
  | cell :: cs' =>
      match cell_step self weights hardwts st cell with
      | None => None
      | Some st' => run_cells self weights hardwts cs' st'
      end
  end.

(** The loop of lines 110-118: skipped when weights are supplied, in which
    case [hardwts] and [index] stay unbound (empty here; no branch reads
    them). *)
Definition forward_sample (fuel : nat) (self : TinyNetworkProxyless)
  (weights : option tensor) (g : rng) : outcome (tensor * list nat * rng) :=
  match weights with
  | None =>
      outcome_map (fun sg => (s_hardwts (fst sg), s_index (fst sg), snd sg))
        (sample fuel (p_data (arch_parameters self)) g)
  | Some _ => Returned ([], [], g)
  end.

(** [forward(inputs, weights)]: [(out, logits, sum(full_cost))] and the
    generator state it leaves. *)
Definition forward (fuel : nat) (self : TinyNetworkProxyless) (inputs : feature)
  (weights : option tensor) (g : rng)
  : outcome (feature * feature * fval * rng) :=
  match forward_sample fuel self weights g with
  | Returned (hardwts, index, g') =>
      match run_cells self weights hardwts (cells self)
              {| ps_feature := seq_forward (stem self) inputs;
                 ps_full_cost := []; ps_index := index |} with
      | None => Raised
      | Some st =>
          let out := seq_forward (lastact self) (ps_feature st) in
          let out := layer_forward (global_pooling self) out in
          let out := view_flat out in
          let logits := layer_forward (classifier self) out in
          Returned (out, logits, fsum (ps_full_cost st), g')
      end
  | Raised => Raised
  | Running => Running
  end.

End Forward.

(** ** Predicates the statements use *)

Definition is_finite (x : fval) : bool :=
  match x with Finite _ => true | _ => false end.

(** No entry of [t] is infinite or not-a-number: the test of lines 86 and
    115 fails. *)
Definition all_finite (t : tensor) : Prop :=
  tensor_any isinf t || tensor_any isnan t = false.

(** A row that sums to 1, with one entry equal to 1 and every other entry
    equal to 0. *)
Definition one_hot_row (row : list fval) : Prop :=
  fsum row = fone /\
  exists c, row !! c = Some fone /\
    forall k x, k <> c -> row !! k = Some x -> x = fzero.

Definition one_hot (t : tensor) : Prop := Forall one_hot_row t.

(** The entry at column [c] is strictly above every other entry of the row. *)
Definition unique_max_at (row : list fval) (c : nat) : Prop :=
  exists v, row !! c = Some v /\
    forall k x, k <> c -> row !! k = Some x -> fltb x v = true.

(** The loop's record of the first cell: before any searchable cell was
    built nothing is recorded; afterwards a count and a map are recorded,
    and every searchable cell built so far reports them. *)
Definition cells_agree `{Collaborators} (st : build_state) : Prop :=
  match b_num_edge st with
  | None => forall a ps, SearchCell a ps ∉ b_cells st
  | Some num_edge =>
      exists m, b_edge2index st = Some m /\
        forall a ps, SearchCell a ps ∈ b_cells st ->
          num_edges a = num_edge /\ cell_edge2index a = m
  end.

(** ** Concrete collaborators, for running the definitions *)

(** The second-order Taylor polynomial of the exponential, which is positive
    everywhere; draws walk through the columns and refuse a row with an
    entry that is not finite, as [torch.multinomial] does. *)
Definition demo_torch : Torch := {|
  expq := fun q => (1 + q + q * q / 2)%Q;
  rng := nat;
  draw := fun row g =>
    if forallb is_finite row && negb (Nat.eqb (length row) 0)
    then (Some (g mod length row)%nat, S g)
    else (None, g);
  randn := fun rows cols g =>
    (replicate rows (replicate cols (Finite (inject_Z (Z.of_nat g)))), S g);
|}.

(** A sampler that never refuses a row. *)
Definition lenient_torch : Torch := {|
  expq := fun q => (1 + q + q * q / 2)%Q;
  rng := nat;
  draw := fun row g => (Some 0%nat, S g);
  randn := fun rows cols g =>
    (replicate rows (replicate cols (Finite (inject_Z (Z.of_nat g)))), S g);
|}.

(** The keys ["i<-j"] for [1 <= i < max_nodes], [0 <= j < i], numbered in
    order. *)
Definition demo_edge_keys (max_nodes : Z) : list string :=
  i ← seqZ 1 (max_nodes - 1); j ← seqZ 0 i; [node_str i j].

Definition demo_edge2index (max_nodes : Z) : gmap string nat :=
  list_to_map (zip (demo_edge_keys max_nodes)
                 (seq 0 (length (demo_edge_keys max_nodes)))).

(** Cells whose edges depend on [max_nodes] only, over integer features. *)
Definition demo_cells : Collaborators := {|
  feature := Z;
  num_edges := fun a => length (demo_edge_keys (sc_max_nodes a));
  cell_edge2index := fun a => demo_edge2index (sc_max_nodes a);
  search_out_dim := sc_C_out;
  search_nparams := fun a => 4%nat;
  res_out_dim := rb_planes;
  res_nparams := fun a => 7%nat;
  forward_gdas := fun cell x w index => (x + 1 + Z.of_nat (hd 0%nat index))%Z;
  forward_gdas_const := fun cell x w index =>
    ((x + 1 + Z.of_nat (hd 0%nat index))%Z, Finite 2);
  cell_forward := fun cell x => (2 * x)%Z;
  layer_forward := fun l x => (x + 3)%Z;
  view_flat := fun x => x;
|}.

(** Cells whose edge count follows their input width: cells of different
    stages disagree. *)
Definition uneven_cells : Collaborators := {|
  feature := Z;
  num_edges := fun a => Z.to_nat (sc_C_in a);
  cell_edge2index := fun a => demo_edge2index (sc_max_nodes a);
  search_out_dim := sc_C_out;
  search_nparams := fun a => 4%nat;
  res_out_dim := rb_planes;
  res_nparams := fun a => 7%nat;
  forward_gdas := fun cell x w index => x;
  forward_gdas_const := fun cell x w index => (x, Finite 2);
  cell_forward := fun cell x => x;
  layer_forward := fun l x => x;
  view_flat := fun x => x;
|}.

(** The network of the end-to-end example: C=8, N=1, max_nodes=3, ten
    classes, three candidate operations, input size 32. *)
Definition demo_construct : option (TinyNetworkProxyless * pid * nat) :=
  @construct demo_torch demo_cells 8 1 3 10
    ["none"; "skip_connect"; "nor_conv_3x3"] false true 32 0%nat 5%nat.

Definition demo_net : TinyNetworkProxyless :=
  match demo_construct with
  | Some (net, _, _) => net
  | None =>
      {| _C := 0; _layerN := 0; max_nodes := 0; stem := []; cells := [];
         op_names := []; _Layer := 0; edge2index := None; lastact := [];
         global_pooling := ReLU; classifier := ReLU;
         arch_parameters := {| p_id := 0%nat; p_data := [] |};
         tau := 0; const := false |}
  end.

(** ** The loop over the cells, one branch at a time

    What lines 122-132 compute when every Searchable Cell of the stack
    takes the same branch, and lines 133-138 after them. *)

Section Passes.
Context `{Collaborators}.

(** Every Searchable Cell through [forward_gdas] with the given weights and
    index, every other cell through its own forward; no cost. *)
Definition gdas_pass (wts : tensor) (index : list nat) (cs : list Cell)
  (x : feature) : feature :=
  fold_left
    (fun x cell =>
       if is_SearchCell cell then forward_gdas cell x wts index
       else cell_forward cell x)
    cs x.

(** Every Searchable Cell through [forward_gdas_const], its cost appended
    to the list; every other cell through its own forward. *)
Definition gdas_const_pass (wts : tensor) (index : list nat) (cs : list Cell)
  (xc : feature * list fval) : feature * list fval :=
  fold_left
    (fun xc cell =>
       if is_SearchCell cell
       then (fst (forward_gdas_const cell (fst xc) wts index),
             snd xc ++ [snd (forward_gdas_const cell (fst xc) wts index)])
       else (cell_forward cell (fst xc), snd xc))
    cs xc.

(** Lines 133-138: the head, and the sum of the costs. *)
Definition classify (self : TinyNetworkProxyless) (xc : feature * list fval)
  : feature * feature * fval :=
  let out := seq_forward (lastact self) (fst xc) in
  let out := layer_forward (global_pooling self) out in
  let out := view_flat out in
  (out, layer_forward (classifier self) out, fsum (snd xc)).

End Passes.

(** ** The temperature (lines 55-59) *)

Definition set_tau (self : TinyNetworkProxyless) (t : Z) : TinyNetworkProxyless :=
  {| _C := _C self; _layerN := _layerN self; max_nodes := max_nodes self;
     stem := stem self; cells := cells self; op_names := op_names self;
     _Layer := _Layer self; edge2index := edge2index self;
     lastact := lastact self; global_pooling := global_pooling self;
     classifier := classifier self; arch_parameters := arch_parameters self;
     tau := t; const := const self |}.

Definition get_tau (self : TinyNetworkProxyless) : Z := tau self.

(** ** Further predicates *)

(** A Searchable Cell keeps the channel width, with stride 1; a reduction
    doubles it, with stride 2. *)
Definition cell_keeps_plan_width (cell : Cell) : Prop :=
  match cell with
  | SearchCell a _ => sc_C_out a = sc_C_in a /\ sc_stride a = 1%Z
  | ResNetBasicblock a _ => rb_planes a = (2 * rb_inplanes a)%Z /\ rb_stride a = 2%Z
  end.

(** Along a plan each entry keeps the width before it, or doubles it when
    it is a reduction. *)
Fixpoint plan_follows (c : Z) (plan : list plan_entry) : Prop :=
  match plan with
  | [] => True
  | (c', reduction, _) :: plan' =>
      (if reduction : bool then c' = (2 * c)%Z else c' = c) /\ plan_follows c' plan'
  end.

(** The cells report the output width they were asked for. *)
Definition honest_widths `{Collaborators} : Prop :=
  (forall a, search_out_dim a = sc_C_out a) /\
  (forall a, res_out_dim a = rb_planes a).

(** Every edge [i<-j] of the cell has a row in the matrix [genotype] reads,
    and the row is not empty and no wider than the list of candidates. *)
Definition decodable (self : TinyNetworkProxyless) (w : option tensor) : Prop :=
  exists m, edge2index self = Some m /\
    forall i j, (1 <= i < max_nodes self)%Z -> (0 <= j < i)%Z ->
      exists r row,
        m !! node_str i j = Some r /\
        decoded_matrix self w !! r = Some row /\
        row <> [] /\ (length row <= length (op_names self))%nat.

(** A value that is not negative: a finite value from 0 up, or plus
    infinity.  Not-a-number does not count. *)
Definition nonneg_cost (x : fval) : Prop :=
  match x with
  | Finite q => (0 <= q)%Q
  | PosInf => True
  | NegInf | NaN => False
  end.

(** Every cost a cell reports is not negative. *)
Definition costs_nonnegative `{Collaborators} : Prop :=
  forall cell x w index, nonneg_cost (snd (forward_gdas_const cell x w index)).

(** The demo network built for input size 0: the cost-accumulation flag is
    off. *)
Definition plain_net : TinyNetworkProxyless :=
  match @construct demo_torch demo_cells 8 1 3 10
          ["none"; "skip_connect"; "nor_conv_3x3"] false true 0 0%nat 5%nat with
  | Some (net, _, _) => net
  | None => demo_net
  end.

(** Cells whose Edge Index Map stops one node short: it has no entry for
    the edges of the last node. *)
Definition sparse_cells : Collaborators := {|
  feature := Z;
  num_edges := fun a => length (demo_edge_keys (sc_max_nodes a - 1));
  cell_edge2index := fun a => demo_edge2index (sc_max_nodes a - 1);
  search_out_dim := sc_C_out;
  search_nparams := fun a => 4%nat;
  res_out_dim := rb_planes;
  res_nparams := fun a => 7%nat;
  forward_gdas := fun cell x w index => x;
  forward_gdas_const := fun cell x w index => (x, Finite 2);
  cell_forward := fun cell x => x;
  layer_forward := fun l x => x;
  view_flat := fun x => x;
|}.

Definition sparse_net : TinyNetworkProxyless :=
  match @construct demo_torch sparse_cells 8 1 3 10
          ["none"; "skip_connect"; "nor_conv_3x3"] false true 32 0%nat 5%nat with
  | Some (net, _, _) => net
  | None => demo_net
  end.

(** * Properties *)

(** ** The layer plan *)

Lemma length_layer_channels C N :
  length (layer_channels C N) = (3 * Z.to_nat N + 2)%nat.
Proof. unfold layer_channels. rewrite !length_app, !length_replicate. simpl. lia. Qed.

Lemma length_layer_reductions N :
  length (layer_reductions N) = (3 * Z.to_nat N + 2)%nat.
Proof. unfold layer_reductions. rewrite !length_app, !length_replicate. simpl. lia. Qed.

Lemma length_layer_sizes s N :
  length (layer_sizes s N) = (3 * Z.to_nat N + 2)%nat.
Proof. unfold layer_sizes. rewrite !length_app, !length_replicate. simpl. lia. Qed.

Lemma zip_with_replicate_both {A B C : Type} (f : A -> B -> C) (n : nat) (a : A) (b : B) :
  zip_with f (replicate n a) (replicate n b) = replicate n (f a b).
Proof. induction n as [|n IH]; simpl; [reflexivity | now rewrite IH]. Qed.

Lemma filter_replicate_false (f : bool -> bool) (n : nat) :
  f false = false -> List.filter f (replicate n false) = [].
Proof. intros Hf. induction n as [|n IH]; simpl; [reflexivity | now rewrite Hf]. Qed.

(** The number of reductions in the plan, for every [N]. *)
Lemma layer_reductions_count N :
  length (List.filter (fun b => b) (layer_reductions N)) = 2%nat.
Proof.
  unfold layer_reductions.
  rewrite !List.filter_app, !filter_replicate_false by reflexivity.
  reflexivity.
Qed.

(** The plan never has the shape of three (N normal + 1 reduction) groups. *)
Lemma layer_reductions_never_three_groups N :
  layer_reductions N <> spec_three_groups N.
Proof.
  intros Heq. apply (f_equal length) in Heq.
  rewrite length_layer_reductions in Heq.
  unfold spec_three_groups in Heq. simpl in Heq.
  rewrite !length_app, !length_replicate in Heq. simpl in Heq. lia.
Qed.

(** C1, as stated, fails: with N = 1 the plan is normal, reduction, normal,
    reduction, normal; it has two reductions and ends with a normal cell,
    so it is not three groups of one normal cell and one reduction. *)
Lemma layer_plan_not_three_groups :
  layer_reductions 1 = [false; true; false; true; false] /\
  map (fun e => snd (fst e)) (layer_plan 16 1 32) = layer_reductions 1 /\
  layer_reductions 1 <> spec_three_groups 1.
Proof.
  split; [reflexivity | split; [reflexivity |]].
  apply layer_reductions_never_three_groups.
Qed.

(** C1, amended: the plan is three stages of N normal cells, at widths C,
    2C, 4C and sizes s, s/2, s/4, separated by two reductions (the first to
    width 2C and size s/2, the second to width 4C and size s/4); it has
    3N + 2 entries, two of them reductions, and nothing follows the third
    stage. *)
Theorem layer_plan_three_stages (C N inp_size : Z) :
  layer_plan C N inp_size =
    replicate (Z.to_nat N) (C, false, inject_Z inp_size)
      ++ [((C * 2)%Z, true, size_div inp_size 2)]
      ++ replicate (Z.to_nat N) ((C * 2)%Z, false, size_div inp_size 2)
      ++ [((C * 4)%Z, true, size_div inp_size 4)]
      ++ replicate (Z.to_nat N) ((C * 4)%Z, false, size_div inp_size 4)
  /\ length (layer_plan C N inp_size) = (3 * Z.to_nat N + 2)%nat
  /\ length (List.filter (fun e : plan_entry => snd (fst e)) (layer_plan C N inp_size)) = 2%nat.
Proof.
  assert (Hplan : layer_plan C N inp_size =
    replicate (Z.to_nat N) (C, false, inject_Z inp_size)
      ++ [((C * 2)%Z, true, size_div inp_size 2)]
      ++ replicate (Z.to_nat N) ((C * 2)%Z, false, size_div inp_size 2)
      ++ [((C * 4)%Z, true, size_div inp_size 4)]
      ++ replicate (Z.to_nat N) ((C * 4)%Z, false, size_div inp_size 4)).
  { unfold layer_plan, layer_channels, layer_reductions, layer_sizes.
    repeat (rewrite zip_with_app by (rewrite ?length_replicate; reflexivity)).
    repeat (rewrite zip_with_app
              by (rewrite ?length_zip_with, ?length_replicate; simpl; lia)).
    rewrite !zip_with_replicate_both. reflexivity. }
  split; [exact Hplan | split].
  - rewrite Hplan, !length_app, !length_replicate. simpl. lia.
  - rewrite Hplan, !List.filter_app. simpl.
    assert (Hnone : forall n c (q : Q),
      List.filter (fun e : plan_entry => snd (fst e)) (replicate n (c, false, q)) = []).
    { intros n c q. induction n as [|n IH]; simpl; [reflexivity | exact IH]. }
    rewrite !Hnone. reflexivity.
Qed.

(** ** The retry loop *)

Section RelaxationFacts.
Context `{Torch}.

Lemma sample_unfold fuel A g :
  sample (S fuel) A g =
    match multinomial (softmax A) g with
    | (None, _) => Raised
    | (Some index, g') =>
        match scatter_ (zeros_like (softmax A)) index fone with
        | None => Raised
        | Some one_h =>
            if tensor_any isinf (softmax A) || tensor_any isnan (softmax A)
            then sample fuel A g'
            else Returned ({| s_probs := softmax A; s_index := index;
                              s_one_h := one_h;
                              s_hardwts := tadd (tsub one_h (softmax A)) (softmax A) |}, g')
        end
    end.
Proof. reflexivity. Qed.

(** With finite probabilities the first pass decides: more fuel changes
    nothing. *)
Lemma sample_first_pass fuel A g :
  all_finite (softmax A) -> sample (S fuel) A g = sample 1 A g.
Proof.
  intros Hfin. rewrite !sample_unfold.
  destruct (multinomial (softmax A) g) as [[index|] g']; [|reflexivity].
  destruct (scatter_ _ index fone); [|reflexivity].
  unfold all_finite in Hfin. now rewrite Hfin.
Qed.

Lemma sample_one_not_running A g :
  all_finite (softmax A) -> sample 1 A g <> Running.
Proof.
  intros Hfin. rewrite sample_unfold.
  destruct (multinomial (softmax A) g) as [[index|] g']; [|discriminate].
  destruct (scatter_ _ index fone); [|discriminate].
  unfold all_finite in Hfin. rewrite Hfin. discriminate.
Qed.

(** The probabilities are recomputed from the same parameters in every
    pass: when the test fails once it fails always. *)
Lemma sample_never_accepts A :
  ~ all_finite (softmax A) -> forall fuel g r, sample fuel A g <> Returned r.
Proof.
  intros Hbad fuel. induction fuel as [|fuel IH]; intros g r; [discriminate|].
  rewrite sample_unfold.
  destruct (multinomial (softmax A) g) as [[index|] g']; [|discriminate].
  destruct (scatter_ _ index fone); [|discriminate].
  unfold all_finite in Hbad.
  destruct (tensor_any isinf (softmax A) || tensor_any isnan (softmax A)) eqn:E.
  - apply IH.
  - congruence.
Qed.

Lemma sample_weights_loop_not_running fuel A n :
  all_finite (softmax A) ->
  forall acc g, sample_weights_loop (S fuel) A n acc g <> Running.
Proof.
  intros Hfin. induction n as [|n IH]; intros acc g;
    cbn [sample_weights_loop]; [discriminate|].
  pose proof (sample_one_not_running A g Hfin) as Hrun.
  rewrite <- (sample_first_pass fuel) in Hrun by assumption.
  destruct (sample (S fuel) A g) as [[s g']| |]; [apply IH | discriminate | congruence].
Qed.

End RelaxationFacts.

(** ** One-hot draws *)

(** The row [scatter_] leaves of a row of [n] zeros: a 1 at column [c]. *)
Lemma zeros_row (row : list fval) :
  map (fun _ => fzero) row = replicate (length row) fzero.
Proof. induction row as [|x row IH]; simpl; [reflexivity | now rewrite IH]. Qed.

Lemma fsum_zeros_from_zero n : fold_left fadd (replicate n fzero) fzero = fzero.
Proof. induction n as [|n IH]; simpl; [reflexivity | exact IH]. Qed.

Lemma fsum_zeros_from_one n : fold_left fadd (replicate n fzero) fone = fone.
Proof. induction n as [|n IH]; simpl; [reflexivity | exact IH]. Qed.

Lemma fsum_hot n : forall c, (c < n)%nat ->
  fsum (<[c := fone]> (replicate n fzero)) = fone.
Proof.
  unfold fsum. induction n as [|n IH]; intros c Hc; [lia|].
  destruct c as [|c]; simpl.
  - apply fsum_zeros_from_one.
  - apply IH. lia.
Qed.

Lemma hot_row_one_hot n c :
  (c < n)%nat -> one_hot_row (<[c := fone]> (replicate n fzero)).
Proof.
  intros Hc. split; [now apply fsum_hot|].
  exists c. split.
  - apply list_lookup_insert_eq. now rewrite length_replicate.
  - intros k x Hk Hx. rewrite list_lookup_insert_ne in Hx by congruence.
    apply lookup_replicate in Hx. tauto.
Qed.

Lemma hot_row_entries n c :
  Forall (fun x => x = fzero \/ x = fone) (<[c := fone]> (replicate n fzero)).
Proof.
  apply Forall_forall. intros x Hx.
  apply list_elem_of_lookup in Hx as [k Hk].
  destruct (decide (k = c)) as [->|Hne].
  - destruct (decide (c < n)%nat) as [Hlt|Hge].
    + rewrite list_lookup_insert_eq in Hk by now rewrite length_replicate.
      right. congruence.
    + rewrite list_insert_ge in Hk by (rewrite length_replicate; lia).
      apply lookup_replicate in Hk. tauto.
  - rewrite list_lookup_insert_ne in Hk by congruence.
    apply lookup_replicate in Hk. tauto.
Qed.

(** What [scatter_] makes of the zero matrix, when the index has a column
    for every row. *)
Lemma scatter_zeros (probs : tensor) : forall index one_h,
  length index = length probs ->
  scatter_ (zeros_like probs) index fone = Some one_h ->
  Forall2 (fun prow orow => exists c, (c < length prow)%nat /\
             orow = <[c := fone]> (replicate (length prow) fzero)) probs one_h.
Proof.
  induction probs as [|prow probs IH]; intros index one_h Hlen Hsc.
  - destruct index; [|discriminate]. simpl in Hsc. injection Hsc as <-. constructor.
  - destruct index as [|c index]; [discriminate|]. simpl in Hsc.
    unfold scatter_row in Hsc. rewrite length_map in Hsc.
    destruct (decide (c < length prow)%nat) as [Hc|]; [|discriminate].
    fold (zeros_like probs) in Hsc.
    destruct (scatter_ (zeros_like probs) index fone) as [rest|] eqn:Hrest; [|discriminate].
    injection Hsc as <-. constructor.
    + exists c. split; [exact Hc|]. now rewrite zeros_row.
    + apply (IH index); [simpl in Hlen; lia | exact Hrest].
Qed.

(** Adding back what was subtracted gives the one-hot entry itself. *)
Lemma straight_through_entry (o : fval) (q : Q) :
  o = fzero \/ o = fone -> fadd (fsub o (Finite q)) (Finite q) = o.
Proof.
  intros [-> | ->]; unfold fzero, fone; simpl; f_equal.
  - transitivity (Qred 0); [|reflexivity]. apply Qred_complete.
    rewrite Qred_correct. ring.
  - transitivity (Qred 1); [|reflexivity]. apply Qred_complete.
    rewrite Qred_correct. ring.
Qed.

Lemma straight_through_row (orow : list fval) : forall prow,
  Forall (fun x => is_finite x = true) prow ->
  length orow = length prow ->
  Forall (fun x => x = fzero \/ x = fone) orow ->
  zip_with fadd (zip_with fsub orow prow) prow = orow.
Proof.
  induction orow as [|o orow IH]; intros prow Hfin Hlen Hent; [reflexivity|].
  destruct prow as [|p prow]; [discriminate|].
  inversion Hfin as [|? ? Hp Hfin']; subst.
  inversion Hent as [|? ? Ho Hent']; subst.
  simpl. destruct p as [q| | |]; try discriminate.
  rewrite straight_through_entry by assumption.
  f_equal. apply IH; [assumption | simpl in Hlen; lia | assumption].
Qed.

Lemma existsb_false_Forall {A : Type} (p : A -> bool) (l : list A) :
  existsb p l = false -> Forall (fun x => p x = false) l.
Proof.
  induction l as [|x l IH]; simpl; intros Hex; [constructor|].
  apply orb_false_iff in Hex as [Hx Hl]. constructor; auto.
Qed.

Lemma all_finite_rows (t : tensor) :
  all_finite t -> Forall (Forall (fun x => is_finite x = true)) t.
Proof.
  unfold all_finite, tensor_any. intros Hall.
  apply orb_false_iff in Hall as [Hinf Hnan].
  apply existsb_false_Forall in Hinf, Hnan.
  rewrite Forall_forall in Hinf, Hnan.
  apply Forall_forall. intros row Hrow.
  specialize (Hinf row Hrow). specialize (Hnan row Hrow).
  apply existsb_false_Forall in Hinf, Hnan.
  rewrite Forall_forall in Hinf, Hnan.
  apply Forall_forall. intros x Hx.
  specialize (Hinf x Hx). specialize (Hnan x Hx).
  destruct x; simpl in *; congruence.
Qed.

Lemma straight_through (probs : tensor) : forall one_h,
  Forall (Forall (fun x => is_finite x = true)) probs ->
  Forall2 (fun prow orow => exists c, (c < length prow)%nat /\
             orow = <[c := fone]> (replicate (length prow) fzero)) probs one_h ->
  tadd (tsub one_h probs) probs = one_h.
Proof.
  unfold tadd, tsub.
  induction probs as [|prow probs IH]; intros one_h Hfin Hhot;
    inversion Hhot as [|? orow ? rest (c & Hc & Horow) Hrest]; subst; [reflexivity|].
  inversion Hfin as [|? ? Hprow Hfin']; subst.
  simpl. f_equal.
  - apply straight_through_row; [assumption | | apply hot_row_entries].
    now rewrite length_insert, length_replicate.
  - now apply IH.
Qed.

Section DrawFacts.
Context `{Torch}.

Lemma length_multinomial (probs : tensor) : forall g index g',
  multinomial probs g = (Some index, g') -> length index = length probs.
Proof.
  induction probs as [|row probs IH]; intros g index g' Hm; simpl in Hm.
  - injection Hm as <- _. reflexivity.
  - destruct (draw row g) as [[c|] g1]; [|discriminate].
    destruct (multinomial probs g1) as [[cs|] g2] eqn:Hrest; [|discriminate].
    injection Hm as <- _. simpl. f_equal. now apply (IH g1 cs g2).
Qed.

(** An accepted pass: the probabilities are finite, the one-hot matrix has
    a single 1 in every row, and the straight-through value equals it. *)
Lemma sample_returned fuel A : forall g s g',
  sample fuel A g = Returned (s, g') ->
  all_finite (s_probs s) /\ one_hot (s_one_h s) /\
  s_hardwts s = s_one_h s /\ length (s_one_h s) = length A.
Proof.
  induction fuel as [|fuel IH]; intros g s g' Hret; [discriminate|].
  rewrite sample_unfold in Hret.
  destruct (multinomial (softmax A) g) as [[index|] g1] eqn:Hm; [|discriminate].
  destruct (scatter_ _ index fone) as [one_h|] eqn:Hsc; [|discriminate].
  destruct (tensor_any isinf (softmax A) || tensor_any isnan (softmax A)) eqn:Hfin.
  - now apply (IH g1 s g').
  - injection Hret as <- <-. simpl.
    pose proof (scatter_zeros _ _ _ (length_multinomial _ _ _ _ Hm) Hsc) as Hhot.
    split; [exact Hfin | split; [|split]].
    + unfold one_hot. apply Forall_forall. intros orow Horow.
      apply list_elem_of_lookup in Horow as [k Hk].
      destruct (Forall2_lookup_r _ _ _ _ _ Hhot Hk) as (prow & _ & c & Hc & ->).
      now apply hot_row_one_hot.
    + apply straight_through; [now apply all_finite_rows | exact Hhot].
    + apply Forall2_length in Hhot. rewrite <- Hhot.
      unfold softmax. now rewrite length_map.
Qed.

Lemma sample_weights_loop_returned fuel A n : forall acc g ms g',
  sample_weights_loop fuel A n acc g = Returned (ms, g') ->
  Forall one_hot acc ->
  Forall one_hot ms /\ length ms = (length acc + n)%nat.
Proof.
  induction n as [|n IH]; intros acc g ms g' Hret Hacc; cbn [sample_weights_loop] in Hret.
  - injection Hret as <- <-. split; [assumption | lia].
  - destruct (sample fuel A g) as [[s g1]| |] eqn:Hs; try discriminate.
    apply IH in Hret.
    + rewrite length_app in Hret. simpl in Hret. split; [tauto | lia].
    + apply Forall_app. split; [assumption|].
      constructor; [|constructor]. now apply sample_returned in Hs.
Qed.

(** C3: the straight-through value [hardwts] of an accepted pass of
    [forward]'s loop, and every matrix [sample_weights(n)] returns, has in
    every row one entry equal to 1 and all others equal to 0, and the row
    sums to 1; [sample_weights(n)] returns [n] of them. *)
Theorem sampled_weights_one_hot (A : tensor) :
  (forall fuel g s g',
     sample fuel A g = Returned (s, g') ->
     one_hot (s_hardwts s) /\ length (s_hardwts s) = length A) /\
  (forall fuel n g ms g',
     sample_weights fuel A n g = Returned (ms, g') ->
     Forall one_hot ms /\ length ms = Z.to_nat n).
Proof.
  split.
  - intros fuel g s g' Hret.
    destruct (sample_returned _ _ _ _ _ Hret) as (_ & Hhot & -> & Hlen). tauto.
  - intros fuel n g ms g' Hret. unfold sample_weights in Hret.
    apply sample_weights_loop_returned in Hret; [|constructor].
    simpl in Hret. exact Hret.
Qed.

End DrawFacts.

(** Draws from the demo network's parameters, through [sample] and through
    [sample_weights(2)]. *)
Lemma sampled_weights_one_hot_witness :
  (exists s g',
     @sample demo_torch 3 (p_data (arch_parameters demo_net)) 4%nat = Returned (s, g') /\
     one_hot (s_hardwts s) /\ length (s_hardwts s) = 3%nat) /\
  (exists ms g',
     @sample_weights demo_torch 3 (p_data (arch_parameters demo_net)) 2 4%nat
       = Returned (ms, g') /\
     Forall one_hot ms /\ length ms = 2%nat).
Proof.
  split.
  - eexists _, _. split; [vm_compute; reflexivity|].
    eapply (proj1 (@sampled_weights_one_hot demo_torch
                    (p_data (arch_parameters demo_net))) 3%nat 4%nat).
    vm_compute. reflexivity.
  - eexists _, _. split; [vm_compute; reflexivity|].
    eapply (proj2 (@sampled_weights_one_hot demo_torch
                    (p_data (arch_parameters demo_net))) 3%nat 2%Z 4%nat).
    vm_compute. reflexivity.
Defined.

(** ** Arg-max *)

Lemma fltb_asym (x y : fval) : fltb x y = true -> fltb y x = false.
Proof.
  destruct x as [a| | |], y as [b| | |]; simpl; try congruence.
  intros Hlt. apply negb_true_iff in Hlt. apply negb_false_iff.
  apply Qle_bool_iff. apply Qlt_le_weak, Qnot_le_lt.
  intros Hle. apply Qle_bool_iff in Hle. congruence.
Qed.

(** Nothing in the rest of the row beats the best entry so far. *)
Lemma argmax_from_best (row : list fval) : forall best_i best i,
  (forall k x, row !! k = Some x -> fltb x best = true) ->
  argmax_from best_i best i row = best_i.
Proof.
  induction row as [|x row IH]; intros best_i best i Hall; [reflexivity|].
  simpl. rewrite (fltb_asym x best) by apply (Hall 0%nat x eq_refl).
  apply IH. intros k y Hk. apply (Hall (S k) y Hk).
Qed.

(** The strict maximum of the rest of the row, when it also beats the best
    entry so far, is found at its position. *)
Lemma argmax_from_at (row : list fval) : forall best_i best i k v,
  row !! k = Some v ->
  (forall j x, j <> k -> row !! j = Some x -> fltb x v = true) ->
  fltb best v = true ->
  argmax_from best_i best i row = (i + k)%nat.
Proof.
  induction row as [|x row IH]; intros best_i best i k v Hk Hmax Hbest; [discriminate|].
  destruct k as [|k]; simpl.
  - injection Hk as ->. rewrite Hbest.
    rewrite argmax_from_best; [lia|].
    intros j y Hj. apply (Hmax (S j) y); [lia | exact Hj].
  - assert (Hx : fltb x v = true) by (apply (Hmax 0%nat x); [lia | reflexivity]).
    assert (Hrest : forall j y, j <> k -> row !! j = Some y -> fltb y v = true).
    { intros j y Hj Hy. apply (Hmax (S j) y); [lia | exact Hy]. }
    destruct (fltb best x).
    + rewrite (IH i x (S i) k v Hk Hrest Hx). lia.
    + rewrite (IH best_i best (S i) k v Hk Hrest Hbest). lia.
Qed.

Lemma argmax_unique (row : list fval) (c : nat) :
  unique_max_at row c -> argmax row = Some c.
Proof.
  intros (v & Hc & Hmax). destruct row as [|x row]; [discriminate|].
  unfold argmax. f_equal. destruct c as [|c].
  - injection Hc as ->. apply argmax_from_best.
    intros k y Hk. apply (Hmax (S k) y); [lia | exact Hk].
  - rewrite (argmax_from_at row 0%nat x 1%nat c v); [lia | exact Hc | |].
    + intros j y Hj Hy. apply (Hmax (S j) y); [lia | exact Hy].
    + apply (Hmax 0%nat x); [lia | reflexivity].
Qed.

(** ** Genotype decoding *)

(** The entry of node [i] is the inner loop run over the sources of [i]. *)
Lemma genotype_node (self : TinyNetworkProxyless) (w : option tensor)
  (gs : list (list (string * Z))) (i : Z) :
  genotype self w = Some gs ->
  (1 <= i < max_nodes self)%Z ->
  exists entry, gs !! Z.to_nat (i - 1) = Some entry /\
    mapM (genotype_edge self w i) (seqZ 0 i) = Some entry.
Proof.
  intros Hg Hi. unfold genotype in Hg. apply mapM_Some_1 in Hg.
  assert (Hlook : seqZ 1 (max_nodes self - 1) !! Z.to_nat (i - 1) = Some i).
  { apply lookup_seqZ. lia. }
  destruct (Forall2_lookup_l _ _ _ _ _ Hg Hlook) as (entry & Hentry & Hnode).
  exists entry. split; assumption.
Qed.

Lemma genotype_edge_source (self : TinyNetworkProxyless) (w : option tensor)
  (i j : Z) (p : string * Z) :
  genotype_edge self w i j = Some p -> snd p = j.
Proof.
  unfold genotype_edge. intros Hp.
  repeat (apply bind_Some in Hp as (? & _ & Hp)).
  injection Hp as <-. reflexivity.
Qed.

(** C5: the genotype has [max_nodes - 1] entries; the entry of node [i],
    for [i] from 1, holds [i] pairs, whose sources are 0, 1, ..., i-1 in
    this order. *)
Theorem genotype_shape (self : TinyNetworkProxyless) (w : option tensor)
  (gs : list (list (string * Z))) :
  (2 <= max_nodes self)%Z ->
  genotype self w = Some gs ->
  length gs = Z.to_nat (max_nodes self - 1) /\
  forall i, (1 <= i < max_nodes self)%Z ->
    exists entry, gs !! Z.to_nat (i - 1) = Some entry /\
      length entry = Z.to_nat i /\
      snd <$> entry = seqZ 0 i.
Proof.
  intros Hmax Hg. split.
  - unfold genotype in Hg. apply length_mapM in Hg.
    rewrite length_seqZ in Hg. lia.
  - intros i Hi. destruct (genotype_node self w gs i Hg Hi) as (entry & Hentry & Hnode).
    exists entry. split; [exact Hentry | split].
    + apply length_mapM in Hnode. rewrite length_seqZ in Hnode. lia.
    + apply (mapM_fmap_Some_inv _ _ _ _ Hnode).
      intros j p. apply genotype_edge_source.
Qed.

(** C4: when the row the Edge Index Map gives the edge [i<-j] has its
    strict maximum at column [c], the operation chosen for that edge is the
    candidate name at index [c]; no other row of the matrix is looked at. *)
Theorem genotype_argmax (self : TinyNetworkProxyless) (w : option tensor)
  (gs : list (list (string * Z))) (m : gmap string nat) (i j : Z) (r : nat)
  (row : list fval) (c : nat) :
  genotype self w = Some gs ->
  edge2index self = Some m ->
  m !! node_str i j = Some r ->
  (1 <= i < max_nodes self)%Z ->
  (0 <= j < i)%Z ->
  decoded_matrix self w !! r = Some row ->
  unique_max_at row c ->
  exists entry name,
    gs !! Z.to_nat (i - 1) = Some entry /\
    entry !! Z.to_nat j = Some (name, j) /\
    op_names self !! c = Some name.
Proof.
  intros Hg Hm Hr Hi Hj Hrow Hmax.
  destruct (genotype_node self w gs i Hg Hi) as (entry & Hentry & Hnode).
  apply mapM_Some_1 in Hnode.
  assert (Hlook : seqZ 0 i !! Z.to_nat j = Some j) by (apply lookup_seqZ; lia).
  destruct (Forall2_lookup_l _ _ _ _ _ Hnode Hlook) as (p & Hp & Hedge).
  unfold genotype_edge in Hedge.
  rewrite Hm in Hedge. simpl in Hedge.
  rewrite Hr in Hedge. simpl in Hedge.
  rewrite Hrow in Hedge. simpl in Hedge.
  rewrite (argmax_unique row c Hmax) in Hedge. simpl in Hedge.
  destruct (op_names self !! c) as [name|] eqn:Hname; [|discriminate].
  simpl in Hedge. injection Hedge as <-.
  exists entry, name. auto.
Qed.

(** The demo network decoded from an override matrix. *)
Lemma genotype_shape_witness :
  exists gs,
    genotype demo_net (Some [[Finite 0; Finite 1; Finite 0];
                             [Finite 1; Finite 0; Finite 0];
                             [Finite 0; Finite 0; Finite 1]]) = Some gs /\
    length gs = 2%nat /\
    forall i, (1 <= i < 3)%Z ->
      exists entry, gs !! Z.to_nat (i - 1) = Some entry /\
        length entry = Z.to_nat i /\ snd <$> entry = seqZ 0 i.
Proof.
  eexists. split; [vm_compute; reflexivity|].
  apply (genotype_shape demo_net
           (Some [[Finite 0; Finite 1; Finite 0];
                  [Finite 1; Finite 0; Finite 0];
                  [Finite 0; Finite 0; Finite 1]])).
  - vm_compute. discriminate.
  - vm_compute. reflexivity.
Defined.

(** Edge [2<-1] of the demo network is row 2; the override has its maximum
    there at column 2, the third candidate. *)
Lemma genotype_argmax_witness :
  exists entry name,
    [[("skip_connect", 0%Z)]; [("none", 0%Z); ("nor_conv_3x3", 1%Z)]]
      !! Z.to_nat (2 - 1) = Some entry /\
    entry !! Z.to_nat 1 = Some (name, 1%Z) /\
    op_names demo_net !! 2%nat = Some name.
Proof.
  apply (genotype_argmax demo_net
           (Some [[Finite 0; Finite 1; Finite 0];
                  [Finite 1; Finite 0; Finite 0];
                  [Finite 0; Finite 0; Finite 1]])
           _ (demo_edge2index 3) 2 1 2%nat [Finite 0; Finite 0; Finite 1] 2%nat).
  - vm_compute. reflexivity.
  - vm_compute. reflexivity.
  - vm_compute. reflexivity.
  - replace (max_nodes demo_net) with 3%Z by (vm_compute; reflexivity). lia.
  - lia.
  - reflexivity.
  - exists (Finite 1). split; [reflexivity|].
    intros [|[|[|k]]] x Hk Hx; try (injection Hx as <-; reflexivity);
      [congruence | discriminate].
Defined.

(** ** Construction *)

Section ConstructionFacts.
Context `{Torch} `{Collaborators}.

(** What a successful construction leaves in the network object. *)
Lemma construct_inv C N max_nodes num_classes search_space affine trs inp_size
  next g net next' g' :
  construct C N max_nodes num_classes search_space affine trs inp_size next g
    = Some (net, next', g') ->
  exists st num_edge,
    build_cells max_nodes search_space affine trs (layer_plan C N inp_size)
      (initial_state C (next + 1 + 2)) = Some st /\
    b_num_edge st = Some num_edge /\
    cells net = b_cells st /\
    edge2index net = b_edge2index st /\
    stem net = [Conv2d 3 C 3 1 (seq next 1); BatchNorm2d C (seq (next + 1) 2)] /\
    lastact net = [BatchNorm2d (C_prev st) (seq (b_next st) 2); ReLU] /\
    global_pooling net = AdaptiveAvgPool2d 1 /\
    classifier net = Linear (C_prev st) num_classes (seq (b_next st + 2) 2) /\
    p_id (arch_parameters net) = (b_next st + 2 + 2)%nat /\
    const net = negb (inp_size =? 0)%Z.
Proof.
  unfold construct, new_Conv2d, new_BatchNorm2d, new_Linear, fresh.
  destruct (build_cells _ _ _ _ _ _) as [st|]; [|discriminate].
  destruct (b_num_edge st) as [num_edge|] eqn:Hne; [|discriminate].
  destruct (randn num_edge (length search_space) g) as [noise g1].
  intros Hc. injection Hc as <- _ _. exists st, num_edge.
  simpl. repeat split; try reflexivity; assumption.
Qed.

Lemma cells_parameters_snoc (cs : list Cell) (cell : Cell) :
  cells_parameters (cs ++ [cell]) = cells_parameters cs ++ cell_parameters cell.
Proof.
  unfold cells_parameters. rewrite map_app, concat_app. simpl.
  now rewrite app_nil_r.
Qed.

Lemma seq_below (start n : nat) : Forall (fun p => (p < start + n)%nat) (seq start n).
Proof.
  apply Forall_forall. intros p Hp. apply list_elem_of_In, in_seq in Hp. lia.
Qed.

Lemma Forall_below_mono (l : list pid) (a b : nat) :
  (a <= b)%nat -> Forall (fun p => (p < a)%nat) l -> Forall (fun p => (p < b)%nat) l.
Proof.
  intros Hab Hl. eapply Forall_impl; [exact Hl|].
  intros p Hp. simpl in *. lia.
Qed.

(** A pass of the loop takes its identities from the counter: the cells'
    parameters stay below it. *)
Lemma build_step_below max_nodes search_space affine trs st entry st' :
  build_step max_nodes search_space affine trs st entry = Some st' ->
  Forall (fun p => (p < b_next st)%nat) (cells_parameters (b_cells st)) ->
  Forall (fun p => (p < b_next st')%nat) (cells_parameters (b_cells st')).
Proof.
  destruct entry as [[C_curr reduction] size].
  unfold build_step, new_ResNetBasicblock, new_SearchCell, fresh.
  intros Hstep Hbelow.
  assert (Hgrow : forall n, Forall (fun p => (p < b_next st + n)%nat)
            (cells_parameters (b_cells st) ++ seq (b_next st) n)).
  { intros n. apply Forall_app. split; [|apply seq_below].
    apply (Forall_below_mono _ (b_next st)); [lia | exact Hbelow]. }
  destruct reduction.
  - injection Hstep as <-. simpl. rewrite cells_parameters_snoc. apply Hgrow.
  - destruct (b_num_edge st) as [num_edge|].
    + destruct (decide _); [|discriminate].
      injection Hstep as <-. simpl. rewrite cells_parameters_snoc. apply Hgrow.
    + injection Hstep as <-. simpl. rewrite cells_parameters_snoc. apply Hgrow.
Qed.

Lemma build_cells_below max_nodes search_space affine trs plan : forall st st',
  build_cells max_nodes search_space affine trs plan st = Some st' ->
  Forall (fun p => (p < b_next st)%nat) (cells_parameters (b_cells st)) ->
  Forall (fun p => (p < b_next st')%nat) (cells_parameters (b_cells st')).
Proof.
  induction plan as [|entry plan IH]; intros st st' Hb Hbelow; simpl in Hb.
  - now injection Hb as <-.
  - destruct (build_step _ _ _ _ st entry) as [st1|] eqn:Hstep; [|discriminate].
    apply (IH st1 st' Hb). eapply build_step_below; eassumption.
Qed.

Lemma build_step_next max_nodes search_space affine trs st entry st' :
  build_step max_nodes search_space affine trs st entry = Some st' ->
  (b_next st <= b_next st')%nat.
Proof.
  destruct entry as [[C_curr reduction] size].
  unfold build_step, new_ResNetBasicblock, new_SearchCell, fresh.
  intros Hstep. destruct reduction.
  - injection Hstep as <-. simpl. lia.
  - destruct (b_num_edge st) as [num_edge|].
    + destruct (decide _); [|discriminate]. injection Hstep as <-. simpl. lia.
    + injection Hstep as <-. simpl. lia.
Qed.

Lemma build_cells_next max_nodes search_space affine trs plan : forall st st',
  build_cells max_nodes search_space affine trs plan st = Some st' ->
  (b_next st <= b_next st')%nat.
Proof.
  induction plan as [|entry plan IH]; intros st st' Hb; simpl in Hb.
  - injection Hb as <-. lia.
  - destruct (build_step _ _ _ _ st entry) as [st1|] eqn:Hstep; [|discriminate].
    apply build_step_next in Hstep. apply IH in Hb. lia.
Qed.

(** C8: after construction, the identity of the Architecture Parameter
    Matrix, the one element of [get_alphas()], is not among the identities
    [get_weights()] returns, and [get_weights()] holds exactly the
    parameters of the stem, the cells, the final normalization, the pooling
    and the classifier. *)
Theorem get_weights_excludes_alphas C N max_nodes num_classes search_space
  affine trs inp_size next g net next' g' :
  construct C N max_nodes num_classes search_space affine trs inp_size next g
    = Some (net, next', g') ->
  (forall a, a ∈ get_alphas net -> p_id a ∉ get_weights net) /\
  (forall p, p ∈ get_weights net <->
     p ∈ seq_parameters (stem net) \/ p ∈ cells_parameters (cells net) \/
     p ∈ seq_parameters (lastact net) \/ p ∈ parameters (global_pooling net) \/
     p ∈ parameters (classifier net)).
Proof.
  intros Hc. split.
  - intros a Ha. unfold get_alphas in Ha. apply list_elem_of_singleton in Ha as ->.
    destruct (construct_inv _ _ _ _ _ _ _ _ _ _ _ _ _ Hc)
      as (st & num_edge & Hb & _ & Hcells & _ & Hstem & Hlast & Hpool & Hfc & Hid & _).
    pose proof (build_cells_next _ _ _ _ _ _ _ Hb) as Hnext.
    pose proof (build_cells_below _ _ _ _ _ _ _ Hb) as Hbelow.
    simpl in Hnext, Hbelow. specialize (Hbelow (Forall_nil_2 _)).
    assert (Hall : Forall (fun p => (p < b_next st + 2 + 2)%nat) (get_weights net)).
    { unfold get_weights. rewrite Hstem, Hcells, Hlast, Hpool, Hfc.
      unfold seq_parameters. simpl.
      repeat (apply Forall_cons; split; [lia|]).
      repeat (apply Forall_app; split).
      - apply (Forall_below_mono _ (b_next st)); [lia | exact Hbelow].
      - repeat (apply Forall_cons; split; [lia|]). constructor.
      - repeat (apply Forall_cons; split; [lia|]). constructor. }
    rewrite Hid. intros Hin. rewrite Forall_forall in Hall.
    specialize (Hall _ Hin). simpl in Hall. lia.
  - intros p. unfold get_weights. rewrite !elem_of_app. tauto.
Qed.

Lemma build_step_agree max_nodes search_space affine trs st entry st' :
  build_step max_nodes search_space affine trs st entry = Some st' ->
  cells_agree st -> cells_agree st'.
Proof.
  destruct entry as [[C_curr reduction] size].
  unfold build_step, new_ResNetBasicblock, new_SearchCell, fresh, cells_agree.
  intros Hstep Hinv. destruct reduction.
  - injection Hstep as <-. simpl.
    destruct (b_num_edge st) as [num_edge|].
    + destruct Hinv as (m & Hm & Hinv). exists m. split; [exact Hm|].
      intros a ps Hin. apply elem_of_app in Hin as [Hin|Hin]; [now apply (Hinv a ps)|].
      apply list_elem_of_singleton in Hin. discriminate.
    + intros a ps Hin. apply elem_of_app in Hin as [Hin|Hin]; [now apply (Hinv a ps)|].
      apply list_elem_of_singleton in Hin. discriminate.
  - destruct (b_num_edge st) as [num_edge|] eqn:Hne.
    + destruct (decide _) as [[Hn He]|]; [|discriminate].
      injection Hstep as <-. simpl.
      destruct Hinv as (m & Hm & Hinv). exists m. split; [exact Hm|].
      intros a ps Hin. apply elem_of_app in Hin as [Hin|Hin]; [now apply (Hinv a ps)|].
      apply list_elem_of_singleton in Hin. injection Hin as -> _.
      split; congruence.
    + injection Hstep as <-. simpl. eexists. split; [reflexivity|].
      intros a ps Hin. apply elem_of_app in Hin as [Hin|Hin].
      * now apply Hinv in Hin.
      * apply list_elem_of_singleton in Hin. injection Hin as -> _.
        split; reflexivity.
Qed.

Lemma build_cells_agree max_nodes search_space affine trs plan : forall st st',
  build_cells max_nodes search_space affine trs plan st = Some st' ->
  cells_agree st -> cells_agree st'.
Proof.
  induction plan as [|entry plan IH]; intros st st' Hb Hinv; simpl in Hb.
  - now injection Hb as <-.
  - destruct (build_step _ _ _ _ st entry) as [st1|] eqn:Hstep; [|discriminate].
    apply (IH st1 st' Hb). eapply build_step_agree; eassumption.
Qed.

(** A failed assertion ends the loop, whatever follows in the plan. *)
Lemma build_cells_aborts max_nodes search_space affine trs pre : forall st0 st,
  build_cells max_nodes search_space affine trs pre st0 = Some st ->
  forall C_curr size post num_edge,
  b_num_edge st = Some num_edge ->
  ~ agrees num_edge (b_edge2index st)
      (search_args st max_nodes search_space affine trs C_curr size) ->
  build_cells max_nodes search_space affine trs
    (pre ++ (C_curr, false, size) :: post) st0 = None.
Proof.
  induction pre as [|entry pre IH]; intros st0 st Hb C_curr size post num_edge Hne Hbad;
    simpl in Hb |- *.
  - injection Hb as ->. unfold new_SearchCell, fresh. rewrite Hne.
    destruct (decide _) as [Hag|]; [contradiction | reflexivity].
  - destruct (build_step _ _ _ _ st0 entry) as [st1|]; [|discriminate].
    now apply (IH st1 st Hb C_curr size post num_edge).
Qed.

(** C9: a construction that succeeds has only Searchable Cells that report
    the edge count and the Edge Index Map the network keeps; and when the
    loop, having recorded a first Searchable Cell, builds one that reports
    another edge count or another map, the construction raises. *)
Theorem construct_checks_cells C N max_nodes num_classes search_space
  affine trs inp_size next g :
  (forall net next' g',
     construct C N max_nodes num_classes search_space affine trs inp_size next g
       = Some (net, next', g') ->
     exists num_edge m,
       edge2index net = Some m /\
       forall a ps, SearchCell a ps ∈ cells net ->
         num_edges a = num_edge /\ cell_edge2index a = m) /\
  (forall pre C_curr size post st num_edge,
     layer_plan C N inp_size = pre ++ (C_curr, false, size) :: post ->
     build_cells max_nodes search_space affine trs pre
       (initial_state C (next + 1 + 2)) = Some st ->
     b_num_edge st = Some num_edge ->
     ~ agrees num_edge (b_edge2index st)
         (search_args st max_nodes search_space affine trs C_curr size) ->
     construct C N max_nodes num_classes search_space affine trs inp_size next g
       = None).
Proof.
  split.
  - intros net next' g' Hc.
    destruct (construct_inv _ _ _ _ _ _ _ _ _ _ _ _ _ Hc)
      as (st & num_edge & Hb & Hne & Hcells & Hmap & _).
    apply build_cells_agree in Hb; [|intros a ps Hin; inversion Hin].
    unfold cells_agree in Hb. rewrite Hne in Hb.
    destruct Hb as (m & Hm & Hb). exists num_edge, m.
    split; [congruence|].
    intros a ps Hin. rewrite Hcells in Hin. now apply (Hb a ps).
  - intros pre C_curr size post st num_edge Hplan Hb Hne Hbad.
    unfold construct, new_Conv2d, new_BatchNorm2d, fresh.
    cbv beta iota zeta. rewrite Hplan.
    pose proof (build_cells_aborts _ _ _ _ pre _ st Hb C_curr size post
                  num_edge Hne Hbad) as Habort.
    unfold plan_entry in *. now rewrite Habort.
Qed.

End ConstructionFacts.

(** The demo network: identities 0..32 are weights, 33 is the Architecture
    Parameter Matrix. *)
Lemma get_weights_excludes_alphas_witness :
  (forall a, a ∈ get_alphas demo_net -> p_id a ∉ get_weights demo_net) /\
  (forall p, p ∈ get_weights demo_net <->
     p ∈ seq_parameters (stem demo_net) \/ p ∈ cells_parameters (cells demo_net) \/
     p ∈ seq_parameters (lastact demo_net) \/
     p ∈ parameters (global_pooling demo_net) \/
     p ∈ parameters (classifier demo_net)).
Proof.
  eapply (@get_weights_excludes_alphas demo_torch demo_cells 8 1 3 10
            ["none"; "skip_connect"; "nor_conv_3x3"] false true 32 0%nat 5%nat
            demo_net).
  vm_compute. reflexivity.
Defined.

(** The demo network's cells agree; with cells whose edge count follows
    their input width the third plan entry, the second Searchable Cell,
    fails the assertion. *)
Lemma construct_checks_cells_witness :
  (exists num_edge m,
     edge2index demo_net = Some m /\
     forall a ps, SearchCell a ps ∈ cells demo_net ->
       @num_edges demo_cells a = num_edge /\ @cell_edge2index demo_cells a = m) /\
  @construct demo_torch uneven_cells 8 1 3 10
    ["none"; "skip_connect"; "nor_conv_3x3"] false true 32 0%nat 5%nat = None.
Proof.
  split.
  - eapply (proj1 (@construct_checks_cells demo_torch demo_cells 8 1 3 10
              ["none"; "skip_connect"; "nor_conv_3x3"] false true 32 0%nat 5%nat)
              demo_net).
    vm_compute. reflexivity.
  - eapply (proj2 (@construct_checks_cells demo_torch uneven_cells 8 1 3 10
              ["none"; "skip_connect"; "nor_conv_3x3"] false true 32 0%nat 5%nat)
              [(8%Z, false, 32%Q); (16%Z, true, 16%Q)] 16%Z 16%Q
              [(32%Z, true, 8%Q); (32%Z, false, 8%Q)]).
    + vm_compute. reflexivity.
    + vm_compute. reflexivity.
    + reflexivity.
    + vm_compute. intros [Hn _]. discriminate.
Defined.

(** ** The forward pass *)

Section ForwardFacts.
Context `{Torch} `{Collaborators}.

Lemma select_branch_search (cell : Cell) (weights : option tensor) (c : bool) :
  is_SearchCell cell = true ->
  select_branch cell weights c =
    match weights with
    | None => if c then GdasConst else GdasPlain
    | Some _ => GdasExternal
    end.
Proof.
  intros Hs. unfold select_branch. rewrite Hs.
  destruct weights, c; reflexivity.
Qed.

Lemma select_branch_fixed (cell : Cell) (weights : option tensor) (c : bool) :
  is_SearchCell cell = false -> select_branch cell weights c = FixedBlock.
Proof. intros Hs. unfold select_branch. now rewrite Hs. Qed.

(** The loop with no weights and the flag off: every Searchable Cell goes
    through the plain branch. *)
Lemma run_cells_gdas_plain (self : TinyNetworkProxyless) (hardwts : tensor)
  (cs : list Cell) :
  const self = false ->
  forall st,
  run_cells self None hardwts cs st =
    Some {| ps_feature := gdas_pass hardwts (ps_index st) cs (ps_feature st);
            ps_full_cost := ps_full_cost st;
            ps_index := ps_index st |}.
Proof.
  intros Hflag. induction cs as [|cell cs IH]; intros st; simpl.
  - now destruct st.
  - unfold cell_step, select_branch. rewrite Hflag.
    destruct (is_SearchCell cell); simpl; now rewrite IH.
Qed.

(** The loop with no weights and the flag on: every Searchable Cell goes
    through the cost-accumulating branch. *)
Lemma run_cells_gdas_const (self : TinyNetworkProxyless) (hardwts : tensor)
  (cs : list Cell) :
  const self = true ->
  forall st,
  run_cells self None hardwts cs st =
    Some {| ps_feature :=
              fst (gdas_const_pass hardwts (ps_index st) cs
                     (ps_feature st, ps_full_cost st));
            ps_full_cost :=
              snd (gdas_const_pass hardwts (ps_index st) cs
                     (ps_feature st, ps_full_cost st));
            ps_index := ps_index st |}.
Proof.
  intros Hflag. induction cs as [|cell cs IH]; intros st; simpl.
  - now destruct st.
  - unfold cell_step, select_branch. rewrite Hflag.
    destruct (is_SearchCell cell); simpl.
    + destruct (forward_gdas_const cell (ps_feature st) hardwts (ps_index st))
        as [feature' cost]. now rewrite IH.
    + now rewrite IH.
Qed.

(** The loop with weights supplied: every Searchable Cell goes through the
    external-weights branch, with the arg-max of the weights as index. *)
Lemma run_cells_gdas_external (self : TinyNetworkProxyless) (w hardwts : tensor)
  (index : list nat) (cs : list Cell) :
  max_index w = Some index ->
  forall st,
  run_cells self (Some w) hardwts cs st =
    Some {| ps_feature := gdas_pass w index cs (ps_feature st);
            ps_full_cost := ps_full_cost st;
            ps_index := if existsb is_SearchCell cs then index else ps_index st |}.
Proof.
  intros Hidx. induction cs as [|cell cs IH]; intros st; simpl.
  - now destruct st.
  - unfold cell_step. destruct (is_SearchCell cell) eqn:Hs.
    + rewrite (select_branch_search _ _ _ Hs). simpl. rewrite Hidx. simpl.
      rewrite IH. simpl. now destruct (existsb is_SearchCell cs).
    + rewrite (select_branch_fixed _ _ _ Hs). now rewrite IH.
Qed.

(** C7: the flag set at construction is the truth value of
    [input_spatial_size], true exactly when it is not zero.  A Searchable
    Cell takes the plain branch exactly when no weights are given and the
    flag is false, the cost-accumulating branch exactly when no weights are
    given and the flag is true, and the external-weights branch exactly when
    weights are given, each branch calling the cell as the source does.  On
    a forward call the loop takes every cell of the stack, in order,
    through the branch these conditions select: without weights and with
    the flag off every Searchable Cell runs [forward_gdas] on the sampled
    selection and no cost is kept; without weights and with the flag on
    every Searchable Cell runs [forward_gdas_const] on the sampled
    selection and its cost is appended; with weights every Searchable Cell
    runs [forward_gdas] on the weights and their row-wise arg-max and no
    cost is kept; every other cell runs its own forward. *)
Theorem forward_branches C N max_nodes num_classes search_space affine trs
  inp_size next g :
  (forall net next' g',
     construct C N max_nodes num_classes search_space affine trs inp_size next g
       = Some (net, next', g') ->
     const net = negb (inp_size =? 0)%Z /\ (const net = true <-> inp_size <> 0%Z)) /\
  (forall (self : TinyNetworkProxyless) cell weights hardwts st,
     is_SearchCell cell = true ->
     (select_branch cell weights (const self) = GdasPlain <->
        weights = None /\ const self = false) /\
     (select_branch cell weights (const self) = GdasConst <->
        weights = None /\ const self = true) /\
     (select_branch cell weights (const self) = GdasExternal <->
        exists w, weights = Some w) /\
     select_branch cell weights (const self) <> FixedBlock /\
     (weights = None -> const self = false ->
        cell_step self weights hardwts st cell =
          Some {| ps_feature := forward_gdas cell (ps_feature st) hardwts (ps_index st);
                  ps_full_cost := ps_full_cost st;
                  ps_index := ps_index st |}) /\
     (weights = None -> const self = true ->
        cell_step self weights hardwts st cell =
          Some {| ps_feature :=
                    fst (forward_gdas_const cell (ps_feature st) hardwts (ps_index st));
                  ps_full_cost :=
                    ps_full_cost st ++
                      [snd (forward_gdas_const cell (ps_feature st) hardwts (ps_index st))];
                  ps_index := ps_index st |}) /\
     (forall w, weights = Some w ->
        cell_step self weights hardwts st cell =
          index ← max_index w;
          Some {| ps_feature := forward_gdas cell (ps_feature st) w index;
                  ps_full_cost := ps_full_cost st;
                  ps_index := index |})) /\
  (forall (self : TinyNetworkProxyless) hardwts cs st,
     (const self = false ->
        run_cells self None hardwts cs st =
          Some {| ps_feature := gdas_pass hardwts (ps_index st) cs (ps_feature st);
                  ps_full_cost := ps_full_cost st;
                  ps_index := ps_index st |}) /\
     (const self = true ->
        run_cells self None hardwts cs st =
          Some {| ps_feature :=
                    fst (gdas_const_pass hardwts (ps_index st) cs
                           (ps_feature st, ps_full_cost st));
                  ps_full_cost :=
                    snd (gdas_const_pass hardwts (ps_index st) cs
                           (ps_feature st, ps_full_cost st));
                  ps_index := ps_index st |}) /\
     (forall w index, max_index w = Some index ->
        run_cells self (Some w) hardwts cs st =
          Some {| ps_feature := gdas_pass w index cs (ps_feature st);
                  ps_full_cost := ps_full_cost st;
                  ps_index :=
                    if existsb is_SearchCell cs then index else ps_index st |})) /\
  (forall fuel (self : TinyNetworkProxyless) inputs gen,
     (const self = false ->
        forward fuel self inputs None gen =
          outcome_map
            (fun sg =>
               (classify self
                  (gdas_pass (s_hardwts (fst sg)) (s_index (fst sg)) (cells self)
                     (seq_forward (stem self) inputs), []),
                snd sg))
            (sample fuel (p_data (arch_parameters self)) gen)) /\
     (const self = true ->
        forward fuel self inputs None gen =
          outcome_map
            (fun sg =>
               (classify self
                  (gdas_const_pass (s_hardwts (fst sg)) (s_index (fst sg))
                     (cells self) (seq_forward (stem self) inputs, [])),
                snd sg))
            (sample fuel (p_data (arch_parameters self)) gen)) /\
     (forall w index, max_index w = Some index ->
        forward fuel self inputs (Some w) gen =
          Returned
            (classify self
               (gdas_pass w index (cells self) (seq_forward (stem self) inputs), []),
             gen))).
Proof.
  split; [|split; [|split]].
  - intros net next' g' Hc.
    destruct (construct_inv _ _ _ _ _ _ _ _ _ _ _ _ _ Hc)
      as (st & num_edge & _ & _ & _ & _ & _ & _ & _ & _ & _ & Hconst).
    split; [exact Hconst|]. rewrite Hconst.
    rewrite negb_true_iff. apply Z.eqb_neq.
  - intros self cell weights hardwts st Hs.
    unfold cell_step. rewrite (select_branch_search cell weights (const self) Hs).
    destruct weights as [w|]; destruct (const self) eqn:Hflag;
      repeat lazymatch goal with
        | |- _ /\ _ => split
        | |- _ <-> _ => split
        end;
      try discriminate; try (intros [? ?]; discriminate);
      try (intros [? ?]; congruence); try (intros; congruence);
      try (intros; split; reflexivity); try (intros; eexists; reflexivity).
    all: intros; try discriminate;
      try match goal with
          | Hw : Some _ = Some _ |- _ => injection Hw as <-; reflexivity
          end;
      try (destruct (forward_gdas_const _ _ _ _); reflexivity).
  - intros self hardwts cs st. split; [|split].
    + intros Hflag. now apply run_cells_gdas_plain.
    + intros Hflag. now apply run_cells_gdas_const.
    + intros w index Hidx. now apply run_cells_gdas_external.
  - intros fuel self inputs gen. split; [|split].
    + intros Hflag. unfold forward, forward_sample.
      destruct (sample fuel _ gen) as [[s g1]| |]; simpl; try reflexivity.
      now rewrite (run_cells_gdas_plain self (s_hardwts s) (cells self) Hflag).
    + intros Hflag. unfold forward, forward_sample.
      destruct (sample fuel _ gen) as [[s g1]| |]; simpl; try reflexivity.
      now rewrite (run_cells_gdas_const self (s_hardwts s) (cells self) Hflag).
    + intros w index Hidx. unfold forward, forward_sample.
      now rewrite (run_cells_gdas_external self w [] index (cells self) Hidx).
Qed.

(** With weights supplied the cells leave the cost list as it is, and only
    the arg-max of the weights can raise. *)
Lemma run_cells_external (self : TinyNetworkProxyless) (w hardwts : tensor)
  (cs : list Cell) : forall st,
  match run_cells self (Some w) hardwts cs st with
  | Some st' => ps_full_cost st' = ps_full_cost st
  | None => max_index w = None
  end.
Proof.
  induction cs as [|cell cs IH]; intros st; simpl; [reflexivity|].
  unfold cell_step. destruct (is_SearchCell cell) eqn:Hs.
  - rewrite (select_branch_search _ _ _ Hs). simpl.
    destruct (max_index w) as [index|] eqn:Hidx; simpl; [|reflexivity].
    specialize (IH {| ps_feature := forward_gdas cell (ps_feature st) w index;
                      ps_full_cost := ps_full_cost st; ps_index := index |}).
    destruct (run_cells _ _ _ cs _); [exact IH | congruence].
  - rewrite (select_branch_fixed _ _ _ Hs).
    specialize (IH {| ps_feature := cell_forward cell (ps_feature st);
                      ps_full_cost := ps_full_cost st; ps_index := ps_index st |}).
    destruct (run_cells _ _ _ cs _); exact IH.
Qed.

(** C10: with external weights, whatever the cost-accumulation flag, a
    forward call never keeps running, raises only when the arg-max of the
    weights raises, and otherwise returns the total cost 0. *)
Theorem forward_external_cost_zero (fuel : nat) (self : TinyNetworkProxyless)
  (inputs : feature) (w : tensor) (g : rng) :
  match forward fuel self inputs (Some w) g with
  | Returned (_, _, cost, _) => cost = fzero
  | Raised => max_index w = None
  | Running => False
  end.
Proof.
  unfold forward, forward_sample.
  pose proof (run_cells_external self w [] (cells self)
                {| ps_feature := seq_forward (stem self) inputs;
                   ps_full_cost := []; ps_index := [] |}) as Hrun.
  destruct (run_cells _ _ _ _ _) as [st|]; [|exact Hrun].
  simpl in Hrun. rewrite Hrun. reflexivity.
Qed.

(** C6: with external weights, the features, the logits and the cost a
    forward call returns are the same for every state of the random
    generator and every fuel; the generator is left as it was; and a
    Searchable Cell is called with the supplied weights and the arg-max of
    each of their rows, whatever the sampled values were. *)
Theorem forward_external_deterministic (self : TinyNetworkProxyless)
  (inputs : feature) (w : tensor) :
  (forall fuel1 fuel2 g1 g2,
     outcome_map fst (forward fuel1 self inputs (Some w) g1) =
     outcome_map fst (forward fuel2 self inputs (Some w) g2)) /\
  (forall fuel g r g',
     forward fuel self inputs (Some w) g = Returned (r, g') -> g' = g) /\
  (forall hardwts st cell,
     is_SearchCell cell = true ->
     cell_step self (Some w) hardwts st cell =
       index ← max_index w;
       Some {| ps_feature := forward_gdas cell (ps_feature st) w index;
               ps_full_cost := ps_full_cost st;
               ps_index := index |}).
Proof.
  split; [|split].
  - intros fuel1 fuel2 g1 g2. unfold forward, forward_sample.
    destruct (run_cells _ _ _ _ _); reflexivity.
  - intros fuel g r g'. unfold forward, forward_sample.
    destruct (run_cells _ _ _ _ _); [|discriminate].
    intros Hret. injection Hret as _ <-. reflexivity.
  - intros hardwts st cell Hs. unfold cell_step.
    now rewrite (select_branch_search _ _ _ Hs).
Qed.

End ForwardFacts.

(** ** The retry loop, in [forward] and in [sample_weights] *)

Section RetryLoop.
Context `{Torch} `{Collaborators}.

Lemma forward_sampled_not_running fuel (self : TinyNetworkProxyless) inputs g :
  all_finite (softmax (p_data (arch_parameters self))) ->
  forward (S fuel) self inputs None g <> Running.
Proof.
  intros Hfin. unfold forward, forward_sample.
  pose proof (sample_one_not_running _ g Hfin) as Hrun.
  rewrite <- (sample_first_pass fuel) in Hrun by assumption.
  destruct (sample (S fuel) _ g) as [[s g']| |]; simpl; [|discriminate|congruence].
  destruct (run_cells _ _ _ _ _); discriminate.
Qed.

Lemma forward_sampled_never_returns fuel (self : TinyNetworkProxyless) inputs g r :
  ~ all_finite (softmax (p_data (arch_parameters self))) ->
  forward fuel self inputs None g <> Returned r.
Proof.
  intros Hbad. unfold forward, forward_sample.
  pose proof (sample_never_accepts _ Hbad fuel g) as Hnever.
  destruct (sample fuel _ g) as [[s g']| |]; simpl; [|discriminate|discriminate].
  now destruct (Hnever (s, g')).
Qed.

(** C2, amended: when the softmax probabilities of the parameters hold no
    infinity and no not-a-number, the retry loop of [forward] and of
    [sample_weights] ends in its first pass, whatever the fuel: no draw is
    discarded, and neither function keeps running.  When they hold one, the
    test fails in every pass, since the probabilities are recomputed from
    the same parameters: no pass accepts a draw, and neither [forward]
    without weights nor [sample_weights(n)] with [n > 0] returns. *)
Theorem sample_terminates_iff_finite (self : TinyNetworkProxyless) :
  (all_finite (softmax (p_data (arch_parameters self))) ->
     forall fuel g,
       sample (S fuel) (p_data (arch_parameters self)) g
         = sample 1 (p_data (arch_parameters self)) g /\
       sample (S fuel) (p_data (arch_parameters self)) g <> Running /\
       (forall inputs, forward (S fuel) self inputs None g <> Running) /\
       (forall n, sample_weights (S fuel) (p_data (arch_parameters self)) n g
                    <> Running)) /\
  (~ all_finite (softmax (p_data (arch_parameters self))) ->
     forall fuel g,
       (forall r, sample fuel (p_data (arch_parameters self)) g <> Returned r) /\
       (forall inputs r, forward fuel self inputs None g <> Returned r) /\
       (forall n r, (0 < n)%Z ->
          sample_weights fuel (p_data (arch_parameters self)) n g <> Returned r)).
Proof.
  split.
  - intros Hfin fuel g. split; [now apply sample_first_pass | split; [|split]].
    + rewrite sample_first_pass by assumption. now apply sample_one_not_running.
    + intros inputs. now apply forward_sampled_not_running.
    + intros n. unfold sample_weights. now apply sample_weights_loop_not_running.
  - intros Hbad fuel g. split; [|split].
    + intros r. now apply sample_never_accepts.
    + intros inputs r. now apply forward_sampled_never_returns.
    + intros n r Hn. unfold sample_weights.
      destruct (Z.to_nat n) as [|n'] eqn:Hnat; [lia|].
      cbn [sample_weights_loop].
      pose proof (sample_never_accepts _ Hbad fuel g) as Hnever.
      destruct (sample fuel _ g) as [[s g']| |]; [|discriminate|discriminate].
      now destruct (Hnever (s, g')).
Qed.

End RetryLoop.

(** C2, as stated, fails: for the one-entry matrix holding not-a-number the
    probabilities hold not-a-number in every pass.  With a sampler that
    refuses such a row the loop raises; with one that does not it is still
    running after any number of passes; with no sampler, fuel or generator
    state does it return a draw. *)
Lemma sample_nan_never_returns :
  @sample demo_torch 5 [[NaN]] 0%nat = Raised /\
  @sample lenient_torch 5 [[NaN]] 0%nat = Running /\
  ~ (exists (T : Torch) (fuel : nat) (g : rng) (r : sampled * rng),
       sample fuel [[NaN]] g = Returned r).
Proof.
  split; [reflexivity | split; [reflexivity |]].
  intros (T & fuel & g & r & Hret).
  apply (sample_never_accepts [[NaN]]) in Hret; [exact Hret|].
  unfold all_finite. simpl. discriminate.
Qed.

(** The amended statement at work: the demo network's parameters are
    finite, so one pass suffices and [forward] does not keep running. *)
Lemma sample_terminates_iff_finite_witness :
  @sample demo_torch 4 (p_data (arch_parameters demo_net)) 4%nat
    = @sample demo_torch 1 (p_data (arch_parameters demo_net)) 4%nat /\
  @sample demo_torch 4 (p_data (arch_parameters demo_net)) 4%nat <> Running /\
  (forall inputs, @forward demo_torch demo_cells 4 demo_net inputs None 4%nat
     <> Running) /\
  (forall n, @sample_weights demo_torch 4 (p_data (arch_parameters demo_net)) n 4%nat
     <> Running).
Proof.
  apply (proj1 (@sample_terminates_iff_finite demo_torch demo_cells demo_net)).
  vm_compute. reflexivity.
Defined.

(** The three branches at work.  The demo network is built for input size
    32, so its flag is set and a call without weights takes its three
    Searchable Cells through [forward_gdas_const]; the same network built
    for input size 0 takes them through [forward_gdas]; and a call with
    weights, every row one-hot at column 0, takes them through
    [forward_gdas] with those weights and the index [0; 0; 0]. *)
Lemma forward_branches_witness :
  (const demo_net = negb (32 =? 0)%Z /\ (const demo_net = true <-> 32%Z <> 0%Z)) /\
  @forward demo_torch demo_cells 3 demo_net 0%Z None 1%nat =
    outcome_map
      (fun sg =>
         (@classify demo_cells demo_net
            (@gdas_const_pass demo_cells (s_hardwts (fst sg)) (s_index (fst sg))
               (cells demo_net) (@seq_forward demo_cells (stem demo_net) 0%Z, [])),
          snd sg))
      (@sample demo_torch 3 (p_data (arch_parameters demo_net)) 1%nat) /\
  @forward demo_torch demo_cells 3 plain_net 0%Z None 1%nat =
    outcome_map
      (fun sg =>
         (@classify demo_cells plain_net
            (@gdas_pass demo_cells (s_hardwts (fst sg)) (s_index (fst sg))
               (cells plain_net) (@seq_forward demo_cells (stem plain_net) 0%Z), []),
          snd sg))
      (@sample demo_torch 3 (p_data (arch_parameters plain_net)) 1%nat) /\
  @forward demo_torch demo_cells 3 demo_net 0%Z
    (Some [[Finite 1; Finite 0; Finite 0];
           [Finite 1; Finite 0; Finite 0];
           [Finite 1; Finite 0; Finite 0]]) 1%nat =
    Returned
      (@classify demo_cells demo_net
         (@gdas_pass demo_cells
            [[Finite 1; Finite 0; Finite 0];
             [Finite 1; Finite 0; Finite 0];
             [Finite 1; Finite 0; Finite 0]] [0; 0; 0]%nat
            (cells demo_net) (@seq_forward demo_cells (stem demo_net) 0%Z), []),
       1%nat).
Proof.
  destruct (@forward_branches demo_torch demo_cells 8 1 3 10
              ["none"; "skip_connect"; "nor_conv_3x3"] false true 32 0%nat 5%nat)
    as (Hflag & _ & _ & Hforward).
  split; [|split; [|split]].
  - apply (Hflag demo_net 34%nat 6%nat). vm_compute. reflexivity.
  - apply (proj1 (proj2 (Hforward 3%nat demo_net 0%Z 1%nat))).
    vm_compute. reflexivity.
  - apply (proj1 (Hforward 3%nat plain_net 0%Z 1%nat)).
    vm_compute. reflexivity.
  - apply (proj2 (proj2 (Hforward 3%nat demo_net 0%Z 1%nat))).
    vm_compute. reflexivity.
Defined.

(** The same three calls, evaluated: the stem and the head add 3 per layer,
    a Searchable Cell adds 1 and the first drawn index, a reduction block
    doubles. *)
Example forward_branches_values :
  @forward demo_torch demo_cells 3 demo_net 0%Z None 1%nat
    = Returned (47%Z, 50%Z, Finite 6, 4%nat) /\
  @forward demo_torch demo_cells 3 plain_net 0%Z None 1%nat
    = Returned (47%Z, 50%Z, Finite 0, 4%nat) /\
  @forward demo_torch demo_cells 3 demo_net 0%Z
    (Some [[Finite 1; Finite 0; Finite 0];
           [Finite 1; Finite 0; Finite 0];
           [Finite 1; Finite 0; Finite 0]]) 1%nat
    = Returned (40%Z, 43%Z, Finite 0, 1%nat).
Proof. repeat split; vm_compute; reflexivity. Qed.

(** The demo network with every row one-hot at column 0: two calls, with
    different fuel and generator states, return the same values. *)
Lemma forward_external_deterministic_witness :
  outcome_map fst
    (@forward demo_torch demo_cells 0 demo_net 0%Z
       (Some [[Finite 1; Finite 0; Finite 0];
              [Finite 1; Finite 0; Finite 0];
              [Finite 1; Finite 0; Finite 0]]) 1%nat) =
  outcome_map fst
    (@forward demo_torch demo_cells 7 demo_net 0%Z
       (Some [[Finite 1; Finite 0; Finite 0];
              [Finite 1; Finite 0; Finite 0];
              [Finite 1; Finite 0; Finite 0]]) 9%nat).
Proof.
  apply (proj1 (@forward_external_deterministic demo_torch demo_cells demo_net 0%Z
                  [[Finite 1; Finite 0; Finite 0];
                   [Finite 1; Finite 0; Finite 0];
                   [Finite 1; Finite 0; Finite 0]])).
Defined.

(** Without weights the result follows the generator state; with weights
    it does not. *)
Example forward_sampled_depends_on_generator :
  outcome_map fst (@forward demo_torch demo_cells 3 demo_net 0%Z None 1%nat) <>
  outcome_map fst (@forward demo_torch demo_cells 3 demo_net 0%Z None 2%nat).
Proof. vm_compute. discriminate. Qed.

Example forward_external_demo :
  @forward demo_torch demo_cells 3 demo_net 0%Z
    (Some [[Finite 1; Finite 0; Finite 0];
           [Finite 1; Finite 0; Finite 0];
           [Finite 1; Finite 0; Finite 0]]) 1%nat
  = Returned (40%Z, 43%Z, Finite 0, 1%nat).
Proof. vm_compute. reflexivity. Qed.

Example forward_sampled_cost_demo :
  @forward demo_torch demo_cells 3 demo_net 0%Z None 1%nat
  = Returned (47%Z, 50%Z, Finite 6, 4%nat).
Proof. vm_compute. reflexivity. Qed.

(** * Further properties *)

(** ** The cell stack a construction builds *)

Section StackFacts.
Context `{Torch} `{Collaborators}.

Lemma layer_plan_shape_aux (C N inp_size : Z) :
  layer_plan C N inp_size =
    replicate (Z.to_nat N) (C, false, inject_Z inp_size)
      ++ [((C * 2)%Z, true, size_div inp_size 2)]
      ++ replicate (Z.to_nat N) ((C * 2)%Z, false, size_div inp_size 2)
      ++ [((C * 4)%Z, true, size_div inp_size 4)]
      ++ replicate (Z.to_nat N) ((C * 4)%Z, false, size_div inp_size 4).
Proof.
  unfold layer_plan, layer_channels, layer_reductions, layer_sizes.
  repeat (rewrite zip_with_app by (rewrite ?length_replicate; reflexivity)).
  repeat (rewrite zip_with_app
            by (rewrite ?length_zip_with, ?length_replicate; simpl; lia)).
  rewrite !zip_with_replicate_both. reflexivity.
Qed.

Lemma build_step_kind max_nodes search_space affine trs st entry st' :
  build_step max_nodes search_space affine trs st entry = Some st' ->
  is_SearchCell <$> b_cells st' =
    (is_SearchCell <$> b_cells st) ++ [negb (snd (fst entry))].
Proof.
  destruct entry as [[C_curr reduction] size].
  unfold build_step, new_ResNetBasicblock, new_SearchCell, fresh.
  intros Hstep. destruct reduction.
  - injection Hstep as <-. simpl. now rewrite fmap_app.
  - destruct (b_num_edge st) as [num_edge|].
    + destruct (decide _); [|discriminate].
      injection Hstep as <-. simpl. now rewrite fmap_app.
    + injection Hstep as <-. simpl. now rewrite fmap_app.
Qed.

Lemma build_cells_kinds max_nodes search_space affine trs plan : forall st st',
  build_cells max_nodes search_space affine trs plan st = Some st' ->
  is_SearchCell <$> b_cells st' =
    (is_SearchCell <$> b_cells st) ++ ((fun e : plan_entry => negb (snd (fst e))) <$> plan).
Proof.
  induction plan as [|entry plan IH]; intros st st' Hb; simpl in Hb.
  - injection Hb as <-. simpl. now rewrite app_nil_r.
  - destruct (build_step _ _ _ _ st entry) as [st1|] eqn:Hstep; [|discriminate].
    rewrite (IH st1 st' Hb), (build_step_kind _ _ _ _ _ _ _ Hstep).
    rewrite <- app_assoc. reflexivity.
Qed.

Lemma layer_plan_reductions C N inp_size :
  (fun e : plan_entry => snd (fst e)) <$> layer_plan C N inp_size = layer_reductions N.
Proof.
  rewrite (layer_plan_shape_aux C N inp_size).
  unfold layer_reductions.
  rewrite !fmap_app, !fmap_replicate. reflexivity.
Qed.

(** The remaining fields a successful construction sets. *)
Lemma construct_fields C N nodes num_classes search_space affine trs inp_size
  next g net next' g' :
  construct C N nodes num_classes search_space affine trs inp_size next g
    = Some (net, next', g') ->
  exists st num_edge,
    build_cells nodes search_space affine trs (layer_plan C N inp_size)
      (initial_state C (next + 1 + 2)) = Some st /\
    b_num_edge st = Some num_edge /\
    _Layer net = length (b_cells st) /\
    op_names net = search_space /\
    max_nodes net = nodes /\
    tau net = 10%Z /\
    p_data (arch_parameters net)
      = tscale (Finite (1 # 1000)) (fst (randn num_edge (length search_space) g)) /\
    g' = snd (randn num_edge (length search_space) g) /\
    next' = (b_next st + 2 + 2 + 1)%nat.
Proof.
  unfold construct, new_Conv2d, new_BatchNorm2d, new_Linear, fresh.
  destruct (build_cells _ _ _ _ _ _) as [st|]; [|discriminate].
  destruct (b_num_edge st) as [num_edge|] eqn:Hne; [|discriminate].
  destruct (randn num_edge (length search_space) g) as [noise g1] eqn:Hr.
  intros Hc. injection Hc as <- <- <-. exists st, num_edge.
  simpl. rewrite Hr. repeat split; try reflexivity; assumption.
Qed.

(** X1: a constructed network has 3N + 2 cells, [_Layer] is their number,
    and the cell at each position is a reduction block exactly where the
    plan has a reduction (positions N and 2N + 1) and a Searchable Cell
    elsewhere. *)
Theorem construct_cell_stack C N max_nodes num_classes search_space affine trs
  inp_size next g net next' g' :
  construct C N max_nodes num_classes search_space affine trs inp_size next g
    = Some (net, next', g') ->
  is_SearchCell <$> cells net = negb <$> layer_reductions N /\
  length (cells net) = (3 * Z.to_nat N + 2)%nat /\
  _Layer net = length (cells net).
Proof.
  intros Hc.
  destruct (construct_inv _ _ _ _ _ _ _ _ _ _ _ _ _ Hc)
    as (st & num_edge & Hb & _ & Hcells & _).
  destruct (construct_fields _ _ _ _ _ _ _ _ _ _ _ _ _ Hc)
    as (st2 & _ & Hb2 & _ & Hlayer & _).
  assert (st2 = st) as -> by congruence.
  pose proof (build_cells_kinds _ _ _ _ _ _ _ Hb) as Hkinds. simpl in Hkinds.
  assert (Hshape : is_SearchCell <$> cells net = negb <$> layer_reductions N).
  { rewrite Hcells, Hkinds, <- (layer_plan_reductions C N inp_size).
    rewrite <- list_fmap_compose. reflexivity. }
  split; [exact Hshape | split; [|congruence]].
  apply (f_equal length) in Hshape.
  rewrite !length_fmap, length_layer_reductions in Hshape. exact Hshape.
Qed.

Lemma build_cells_reductions_only max_nodes search_space affine trs plan : forall st st',
  Forall (fun e : plan_entry => snd (fst e) = true) plan ->
  build_cells max_nodes search_space affine trs plan st = Some st' ->
  b_num_edge st' = b_num_edge st.
Proof.
  induction plan as [|[[C_curr reduction] size] plan IH]; intros st st' Hall Hb;
    simpl in Hb.
  - now injection Hb as <-.
  - inversion Hall as [|? ? Hred Hall']; subst. simpl in Hred. subst reduction.
    unfold new_ResNetBasicblock, fresh in Hb.
    now rewrite (IH _ st' Hall' Hb).
Qed.

(** X2: with no cell per stage (N <= 0) the plan holds the two reductions
    only, no Searchable Cell sets the edge count, and construction raises
    when it allocates the parameter matrix. *)
Theorem construct_needs_search_cell C N max_nodes num_classes search_space
  affine trs inp_size next g :
  (N <= 0)%Z ->
  layer_plan C N inp_size =
    [((C * 2)%Z, true, size_div inp_size 2); ((C * 4)%Z, true, size_div inp_size 4)] /\
  construct C N max_nodes num_classes search_space affine trs inp_size next g = None.
Proof.
  intros HN.
  assert (Hplan : layer_plan C N inp_size =
    [((C * 2)%Z, true, size_div inp_size 2); ((C * 4)%Z, true, size_div inp_size 4)]).
  { rewrite layer_plan_shape_aux. replace (Z.to_nat N) with 0%nat by lia. reflexivity. }
  split; [exact Hplan|].
  destruct (construct C N max_nodes num_classes search_space affine trs inp_size next g)
    as [[[net next'] g']|] eqn:Hc; [|reflexivity].
  destruct (construct_inv _ _ _ _ _ _ _ _ _ _ _ _ _ Hc)
    as (st & num_edge & Hb & Hne & _).
  rewrite Hplan in Hb.
  apply build_cells_reductions_only in Hb; [|repeat constructor].
  simpl in Hb. congruence.
Qed.

Lemma plan_follows_replicate (c : Z) (q : Q) (n : nat) (rest : list plan_entry) :
  plan_follows c rest -> plan_follows c (replicate n (c, false, q) ++ rest).
Proof. intros Hrest. induction n as [|n IH]; simpl; [exact Hrest | now split]. Qed.

Lemma plan_follows_layer_plan C N inp_size :
  plan_follows C (layer_plan C N inp_size).
Proof.
  rewrite layer_plan_shape_aux.
  apply plan_follows_replicate. simpl. split; [lia|].
  apply plan_follows_replicate. simpl. split; [lia|].
  rewrite <- (app_nil_r (replicate _ _)). now apply plan_follows_replicate.
Qed.

(** The width the loop ends with: that of the last plan entry. *)
Lemma build_cells_widths max_nodes search_space affine trs plan :
  honest_widths ->
  forall st st',
  plan_follows (C_prev st) plan ->
  Forall cell_keeps_plan_width (b_cells st) ->
  build_cells max_nodes search_space affine trs plan st = Some st' ->
  Forall cell_keeps_plan_width (b_cells st') /\
  C_prev st' = fold_left (fun _ (e : plan_entry) => fst (fst e)) plan (C_prev st).
Proof.
  intros [Hsearch Hres].
  induction plan as [|[[C_curr reduction] size] plan IH]; intros st st' Hfol Hok Hb;
    simpl in Hb.
  - injection Hb as <-. split; [exact Hok | reflexivity].
  - destruct Hfol as [Hw Hfol]. simpl.
    destruct reduction.
    + unfold new_ResNetBasicblock, fresh in Hb.
      apply IH in Hb; simpl.
      * destruct Hb as [Hok' Hprev]. split; [exact Hok'|].
        rewrite Hprev. simpl. now rewrite Hres.
      * simpl. now rewrite Hres.
      * simpl. apply Forall_app. split; [exact Hok|].
        constructor; [|constructor]. simpl. split; [exact Hw | reflexivity].
    + unfold new_SearchCell, fresh in Hb.
      assert (Hcell : cell_keeps_plan_width
                (SearchCell (search_args st max_nodes search_space affine trs C_curr size)
                   (seq (b_next st) (search_nparams
                      (search_args st max_nodes search_space affine trs C_curr size))))).
      { simpl. split; [exact Hw | reflexivity]. }
      destruct (b_num_edge st) as [num_edge|].
      * destruct (decide _); [|discriminate].
        apply IH in Hb; simpl.
        -- destruct Hb as [Hok' Hprev]. split; [exact Hok'|].
           rewrite Hprev. simpl. now rewrite Hsearch.
        -- simpl. now rewrite Hsearch.
        -- simpl. apply Forall_app. split; [exact Hok|]. now constructor.
      * apply IH in Hb; simpl.
        -- destruct Hb as [Hok' Hprev]. split; [exact Hok'|].
           rewrite Hprev. simpl. now rewrite Hsearch.
        -- simpl. now rewrite Hsearch.
        -- simpl. apply Forall_app. split; [exact Hok|]. now constructor.
Qed.

Lemma fold_width_replicate (c : Z) (q : Q) (n : nat) :
  fold_left (fun _ (e : plan_entry) => fst (fst e)) (replicate n (c, false, q)) c = c.
Proof. induction n as [|n IH]; simpl; [reflexivity | exact IH]. Qed.

Lemma layer_plan_final_width C N inp_size :
  fold_left (fun _ (e : plan_entry) => fst (fst e)) (layer_plan C N inp_size) C
    = (C * 4)%Z.
Proof.
  rewrite layer_plan_shape_aux.
  rewrite fold_left_app, fold_width_replicate. simpl.
  rewrite fold_left_app, fold_width_replicate. simpl.
  apply fold_width_replicate.
Qed.

(** X4: when the cells report the output width they were asked for, every
    Searchable Cell of a constructed network keeps its channel width with
    stride 1, every reduction block doubles it with stride 2, and the final
    normalization and the classifier are built for 4C channels. *)
Theorem construct_widths C N max_nodes num_classes search_space affine trs
  inp_size next g net next' g' :
  honest_widths ->
  construct C N max_nodes num_classes search_space affine trs inp_size next g
    = Some (net, next', g') ->
  Forall cell_keeps_plan_width (cells net) /\
  (exists ps, lastact net = [BatchNorm2d (C * 4) ps; ReLU]) /\
  (exists ps, classifier net = Linear (C * 4) num_classes ps).
Proof.
  intros Hhonest Hc.
  destruct (construct_inv _ _ _ _ _ _ _ _ _ _ _ _ _ Hc)
    as (st & num_edge & Hb & _ & Hcells & _ & _ & Hlast & _ & Hfc & _).
  apply (build_cells_widths _ _ _ _ _ Hhonest) in Hb;
    [|apply plan_follows_layer_plan | constructor].
  destruct Hb as [Hok Hprev]. simpl in Hprev.
  rewrite layer_plan_final_width in Hprev.
  rewrite Hcells, Hlast, Hfc, Hprev. eauto.
Qed.

Lemma seq_glue (a n b m : nat) :
  b = (a + n)%nat -> seq a n ++ seq b m = seq a (n + m).
Proof. intros ->. symmetry. apply seq_app. Qed.

(** A pass of the loop gives its cell the next identities of the counter. *)
Lemma build_step_alloc max_nodes search_space affine trs st entry st' :
  build_step max_nodes search_space affine trs st entry = Some st' ->
  (b_next st <= b_next st')%nat /\
  cells_parameters (b_cells st') =
    cells_parameters (b_cells st) ++ seq (b_next st) (b_next st' - b_next st).
Proof.
  destruct entry as [[C_curr reduction] size].
  unfold build_step, new_ResNetBasicblock, new_SearchCell, fresh.
  intros Hstep.
  assert (Hsnoc : forall n, (b_next st + n - b_next st)%nat = n) by (intros; lia).
  destruct reduction.
  - injection Hstep as <-. simpl. rewrite cells_parameters_snoc, Hsnoc. simpl.
    split; [lia | reflexivity].
  - destruct (b_num_edge st) as [num_edge|].
    + destruct (decide _); [|discriminate].
      injection Hstep as <-. simpl. rewrite cells_parameters_snoc, Hsnoc. simpl.
      split; [lia | reflexivity].
    + injection Hstep as <-. simpl. rewrite cells_parameters_snoc, Hsnoc. simpl.
      split; [lia | reflexivity].
Qed.

Lemma build_cells_alloc max_nodes search_space affine trs plan : forall st st',
  build_cells max_nodes search_space affine trs plan st = Some st' ->
  (b_next st <= b_next st')%nat /\
  cells_parameters (b_cells st') =
    cells_parameters (b_cells st) ++ seq (b_next st) (b_next st' - b_next st).
Proof.
  induction plan as [|entry plan IH]; intros st st' Hb; simpl in Hb.
  - injection Hb as <-. rewrite Nat.sub_diag. simpl.
    split; [lia | now rewrite app_nil_r].
  - destruct (build_step _ _ _ _ st entry) as [st1|] eqn:Hstep; [|discriminate].
    apply build_step_alloc in Hstep as [Hle1 Hp1].
    apply IH in Hb as [Hle2 Hp2].
    split; [lia|]. rewrite Hp2, Hp1, <- app_assoc. f_equal.
    rewrite seq_glue by lia. f_equal. lia.
Qed.

(** X5: the weights and the architecture parameters together are exactly
    the parameters the construction created, each listed once, in the order
    of their creation: the two lists split them with nothing left over. *)
Theorem get_weights_partition C N max_nodes num_classes search_space affine trs
  inp_size next g net next' g' :
  construct C N max_nodes num_classes search_space affine trs inp_size next g
    = Some (net, next', g') ->
  get_weights net ++ (p_id <$> get_alphas net) = seq next (next' - next) /\
  NoDup (get_weights net ++ (p_id <$> get_alphas net)).
Proof.
  intros Hc.
  destruct (construct_inv _ _ _ _ _ _ _ _ _ _ _ _ _ Hc)
    as (st & num_edge & Hb & _ & Hcells & _ & Hstem & Hlast & Hpool & Hfc & Hid & _).
  destruct (construct_fields _ _ _ _ _ _ _ _ _ _ _ _ _ Hc)
    as (st2 & _ & Hb2 & _ & _ & _ & _ & _ & _ & _ & Hnext).
  assert (st2 = st) as -> by congruence.
  apply build_cells_alloc in Hb as [Hle Hparams]. simpl in Hle, Hparams.
  assert (Heq : get_weights net ++ (p_id <$> get_alphas net) = seq next (next' - next)).
  { unfold get_weights, get_alphas.
    rewrite Hstem, Hcells, Hlast, Hpool, Hfc, Hparams, Hnext.
    unfold seq_parameters. simpl concat. simpl parameters. simpl fmap.
    rewrite Hid, !app_nil_r.
    change (((((seq next 1 ++ seq (next + 1) 2)
                ++ seq (next + 1 + 2) (b_next st - (next + 1 + 2)))
               ++ seq (b_next st) 2) ++ seq (b_next st + 2) 2)
             ++ seq (b_next st + 2 + 2) 1
            = seq next (b_next st + 2 + 2 + 1 - next)).
    rewrite (seq_glue next 1 (next + 1) 2) by lia.
    rewrite (seq_glue next _ (next + 1 + 2)) by lia.
    rewrite (seq_glue next _ (b_next st)) by lia.
    rewrite (seq_glue next _ (b_next st + 2)) by lia.
    rewrite (seq_glue next _ (b_next st + 2 + 2)) by lia.
    f_equal. lia. }
  split; [exact Heq|]. rewrite Heq. apply NoDup_seq.
Qed.

End StackFacts.

(** ** When decoding raises and when it returns *)

(** A decoded genotype went through the inner loop body of every edge. *)
Lemma genotype_edge_lookup (self : TinyNetworkProxyless) (w : option tensor)
  (gs : list (list (string * Z))) (i j : Z) :
  genotype self w = Some gs ->
  (1 <= i < max_nodes self)%Z -> (0 <= j < i)%Z ->
  exists entry p,
    gs !! Z.to_nat (i - 1) = Some entry /\
    entry !! Z.to_nat j = Some p /\
    genotype_edge self w i j = Some p.
Proof.
  intros Hg Hi Hj.
  destruct (genotype_node self w gs i Hg Hi) as (entry & Hentry & Hnode).
  apply mapM_Some_1 in Hnode.
  assert (Hlook : seqZ 0 i !! Z.to_nat j = Some j) by (apply lookup_seqZ; lia).
  destruct (Forall2_lookup_l _ _ _ _ _ Hnode Hlook) as (p & Hp & Hedge).
  exists entry, p. auto.
Qed.

(** The lookups the inner loop body made when it returned. *)
Lemma genotype_edge_inv (self : TinyNetworkProxyless) (w : option tensor)
  (i j : Z) (p : string * Z) :
  genotype_edge self w i j = Some p ->
  exists m r row c name,
    edge2index self = Some m /\ m !! node_str i j = Some r /\
    decoded_matrix self w !! r = Some row /\ argmax row = Some c /\
    op_names self !! c = Some name /\ p = (name, j).
Proof.
  unfold genotype_edge. intros Hp.
  apply bind_Some in Hp as (m & Hm & Hp).
  apply bind_Some in Hp as (r & Hr & Hp).
  apply bind_Some in Hp as (row & Hrow & Hp).
  apply bind_Some in Hp as (c & Hc & Hp).
  apply bind_Some in Hp as (name & Hname & Hp).
  injection Hp as <-. exists m, r, row, c, name. auto 10.
Qed.

(** X6: decoding raises when the Edge Index Map has no entry for an edge
    [i<-j] of the cell (the key lookup of lines 101 and 103 fails), or when
    there is no map at all. *)
Theorem genotype_missing_edge (self : TinyNetworkProxyless) (w : option tensor)
  (i j : Z) :
  (1 <= i < max_nodes self)%Z -> (0 <= j < i)%Z ->
  (edge2index self ≫= (fun m => m !! node_str i j)) = None ->
  genotype self w = None.
Proof.
  intros Hi Hj Hmiss.
  destruct (genotype self w) as [gs|] eqn:Hg; [|reflexivity].
  destruct (genotype_edge_lookup self w gs i j Hg Hi Hj) as (entry & p & _ & _ & Hedge).
  apply genotype_edge_inv in Hedge as (m & r & _ & _ & _ & Hm & Hr & _).
  rewrite Hm in Hmiss. simpl in Hmiss. congruence.
Qed.

(** X7: decoding raises when the row an edge is mapped to lies outside the
    matrix it reads, when that row is empty, and when its arg-max column
    lies outside the list of candidate names. *)
Theorem genotype_bad_row (self : TinyNetworkProxyless) (w : option tensor)
  (m : gmap string nat) (i j : Z) (r : nat) :
  (1 <= i < max_nodes self)%Z -> (0 <= j < i)%Z ->
  edge2index self = Some m ->
  m !! node_str i j = Some r ->
  (length (decoded_matrix self w) <= r)%nat \/
  decoded_matrix self w !! r = Some [] \/
  (exists row c, decoded_matrix self w !! r = Some row /\
     argmax row = Some c /\ (length (op_names self) <= c)%nat) ->
  genotype self w = None.
Proof.
  intros Hi Hj Hm Hr Hbad.
  destruct (genotype self w) as [gs|] eqn:Hg; [|reflexivity].
  destruct (genotype_edge_lookup self w gs i j Hg Hi Hj) as (entry & p & _ & _ & Hedge).
  apply genotype_edge_inv in Hedge
    as (m' & r' & row' & c' & name & Hm' & Hr' & Hrow' & Hc' & Hname & _).
  assert (m' = m) as -> by congruence.
  assert (r' = r) as -> by congruence.
  destruct Hbad as [Hlen | [Hempty | (row & c & Hrow & Hc & Hlen)]].
  - pose proof (proj2 (lookup_ge_None (decoded_matrix self w) r) Hlen).
    unfold tensor in *. congruence.
  - assert (row' = []) as -> by congruence. discriminate.
  - assert (row' = row) as -> by congruence.
    assert (c' = c) as -> by congruence.
    pose proof (proj2 (lookup_ge_None (op_names self) c) Hlen). congruence.
Qed.

Lemma argmax_from_bound (row : list fval) : forall best_i best i,
  argmax_from best_i best i row = best_i \/
  (i <= argmax_from best_i best i row < i + length row)%nat.
Proof.
  induction row as [|x row IH]; intros best_i best i; simpl; [now left|].
  destruct (fltb best x).
  - destruct (IH i x (S i)) as [-> | Hin]; right; lia.
  - destruct (IH best_i best (S i)) as [-> | Hin]; [now left | right; lia].
Qed.

(** The arg-max of a row is one of its columns. *)
Lemma argmax_lt (row : list fval) (c : nat) :
  argmax row = Some c -> (c < length row)%nat.
Proof.
  destruct row as [|x row]; [discriminate|]. unfold argmax.
  intros Hc. injection Hc as <-. simpl.
  destruct (argmax_from_bound row 0%nat x 1%nat) as [-> | Hin]; lia.
Qed.

(** X8: decoding returns a genotype whenever every edge of the cell has a
    row in the matrix, and that row is not empty and no wider than the list
    of candidate names. *)
Theorem genotype_total (self : TinyNetworkProxyless) (w : option tensor) :
  decodable self w -> exists gs, genotype self w = Some gs.
Proof.
  intros (m & Hm & Hedges).
  apply (mapM_is_Some (fun i => mapM (genotype_edge self w i) (seqZ 0 i))).
  apply Forall_forall. intros i Hi. apply elem_of_seqZ in Hi.
  apply (mapM_is_Some (genotype_edge self w i)).
  apply Forall_forall. intros j Hj. apply elem_of_seqZ in Hj.
  destruct (Hedges i j) as (r & row & Hr & Hrow & Hne & Hlen); [lia | lia |].
  unfold compose, genotype_edge. rewrite Hm. simpl. rewrite Hr. simpl.
  rewrite Hrow. simpl.
  destruct (argmax row) as [c|] eqn:Hc; [|destruct row; [congruence | discriminate]].
  simpl. apply argmax_lt in Hc.
  destruct (lookup_lt_is_Some_2 (op_names self) c) as [name Hname]; [lia|].
  rewrite Hname. simpl. eauto.
Qed.

(** ** Sampling and decoding together *)

Lemma fltb_zero_one : fltb fzero fone = true.
Proof. reflexivity. Qed.

Lemma hot_row_unique_max (n c : nat) :
  (c < n)%nat -> unique_max_at (<[c := fone]> (replicate n fzero)) c.
Proof.
  intros Hc. exists fone. split.
  - apply list_lookup_insert_eq. now rewrite length_replicate.
  - intros k x Hk Hx. rewrite list_lookup_insert_ne in Hx by congruence.
    apply lookup_replicate in Hx as [-> _]. apply fltb_zero_one.
Qed.

(** The one-hot matrix row by row, against the index it was scattered from. *)
Lemma scatter_zeros_index (probs : tensor) : forall index one_h,
  length index = length probs ->
  scatter_ (zeros_like probs) index fone = Some one_h ->
  Forall2 (fun c prow => (c < length prow)%nat) index probs /\
  Forall2 (fun c orow => exists n, (c < n)%nat /\
             orow = <[c := fone]> (replicate n fzero)) index one_h.
Proof.
  induction probs as [|prow probs IH]; intros index one_h Hlen Hsc.
  - destruct index; [|discriminate]. simpl in Hsc. injection Hsc as <-.
    split; constructor.
  - destruct index as [|c index]; [discriminate|]. simpl in Hsc.
    unfold scatter_row in Hsc. rewrite length_map in Hsc.
    destruct (decide (c < length prow)%nat) as [Hc|]; [|discriminate].
    fold (zeros_like probs) in Hsc.
    destruct (scatter_ (zeros_like probs) index fone) as [rest|] eqn:Hrest; [|discriminate].
    injection Hsc as <-.
    destruct (IH index rest) as [Hin Hhot]; [simpl in Hlen; lia | exact Hrest |].
    split; constructor; try assumption.
    exists (length prow). split; [exact Hc | now rewrite zeros_row].
Qed.

Lemma Forall2_map_r {A B C : Type} (P : A -> C -> Prop) (f : B -> C) (l : list A) :
  forall k, Forall2 P l (map f k) -> Forall2 (fun x y => P x (f y)) l k.
Proof.
  induction l as [|x l IH]; intros [|y k] Hall; inversion Hall; subst;
    constructor; auto.
Qed.

Section SampleDecode.
Context `{Torch}.

Lemma length_softmax_row (row : list fval) : length (softmax_row row) = length row.
Proof. unfold softmax_row. now rewrite !length_map. Qed.

(** What an accepted pass leaves: one column per row, each one of the row's
    columns, and a one-hot matrix with its 1 at that column. *)
Lemma sample_index_facts fuel A : forall g s g',
  sample fuel A g = Returned (s, g') ->
  Forall2 (fun c row => (c < length row)%nat) (s_index s) A /\
  Forall2 (fun c orow => exists n, (c < n)%nat /\
             orow = <[c := fone]> (replicate n fzero)) (s_index s) (s_one_h s).
Proof.
  induction fuel as [|fuel IH]; intros g s g' Hret; [discriminate|].
  rewrite sample_unfold in Hret.
  destruct (multinomial (softmax A) g) as [[index|] g1] eqn:Hm; [|discriminate].
  destruct (scatter_ _ index fone) as [one_h|] eqn:Hsc; [|discriminate].
  destruct (tensor_any isinf (softmax A) || tensor_any isnan (softmax A)) eqn:Hfin.
  - now apply (IH g1 s g').
  - injection Hret as <- <-. simpl.
    destruct (scatter_zeros_index _ _ _ (length_multinomial _ _ _ _ Hm) Hsc)
      as [Hin Hhot].
    split; [|exact Hhot].
    unfold softmax in Hin. apply Forall2_map_r in Hin.
    eapply Forall2_impl; [exact Hin|].
    intros c row Hc. simpl in Hc. now rewrite length_softmax_row in Hc.
Qed.

(** X9: an accepted draw holds one column index for every row of the
    parameter matrix, each within the row's columns, and the row-wise
    arg-max of the one-hot matrix (and of the straight-through value) gives
    back exactly the drawn indices: passing a sampled matrix to [forward] as
    external weights selects the sampled operations. *)
Theorem sample_index_round_trip (fuel : nat) (A : tensor) (g : rng)
  (s : sampled) (g' : rng) :
  sample fuel A g = Returned (s, g') ->
  length (s_index s) = length A /\
  (forall r c row, s_index s !! r = Some c -> A !! r = Some row ->
     (c < length row)%nat) /\
  max_index (s_one_h s) = Some (s_index s) /\
  max_index (s_hardwts s) = Some (s_index s).
Proof.
  intros Hret.
  destruct (sample_index_facts _ _ _ _ _ Hret) as [Hin Hhot].
  destruct (sample_returned _ _ _ _ _ Hret) as (_ & _ & Hhard & _).
  assert (Hmax : max_index (s_one_h s) = Some (s_index s)).
  { unfold max_index. apply mapM_Some_2. apply Forall2_flip.
    eapply Forall2_impl; [exact Hhot|].
    intros c orow (n & Hc & ->). unfold flip.
    apply argmax_unique. now apply hot_row_unique_max. }
  split; [now apply Forall2_length in Hin | split; [|split]].
  - intros r c row Hc Hrow. apply (Forall2_lookup_lr _ _ _ _ _ _ Hin Hc Hrow).
  - exact Hmax.
  - now rewrite Hhard.
Qed.

(** X10: decoding a sampled one-hot matrix names, for every edge, the
    candidate operation whose index was drawn for the edge's row. *)
Theorem genotype_of_sample (self : TinyNetworkProxyless) (fuel : nat) (A : tensor)
  (g : rng) (s : sampled) (g' : rng) (gs : list (list (string * Z)))
  (m : gmap string nat) (i j : Z) (r c : nat) :
  sample fuel A g = Returned (s, g') ->
  genotype self (Some (s_one_h s)) = Some gs ->
  edge2index self = Some m ->
  m !! node_str i j = Some r ->
  s_index s !! r = Some c ->
  (1 <= i < max_nodes self)%Z -> (0 <= j < i)%Z ->
  exists entry name,
    gs !! Z.to_nat (i - 1) = Some entry /\
    entry !! Z.to_nat j = Some (name, j) /\
    op_names self !! c = Some name.
Proof.
  intros Hret Hg Hm Hr Hc Hi Hj.
  destruct (sample_index_facts _ _ _ _ _ Hret) as [_ Hhot].
  destruct (Forall2_lookup_l _ _ _ _ _ Hhot Hc) as (orow & Horow & n & Hcn & ->).
  destruct (genotype_edge_lookup self _ gs i j Hg Hi Hj)
    as (entry & p & Hentry & Hp & Hedge).
  apply genotype_edge_inv in Hedge
    as (m' & r' & row' & c' & name & Hm' & Hr' & Hrow' & Hc' & Hname & ->).
  assert (m' = m) as -> by congruence.
  assert (r' = r) as -> by congruence.
  simpl in Hrow'. unfold tensor in *.
  assert (row' = <[c := fone]> (replicate n fzero)) as -> by congruence.
  rewrite (argmax_unique _ c (hot_row_unique_max n c Hcn)) in Hc'.
  injection Hc' as <-.
  exists entry, name. auto.
Qed.

End SampleDecode.

(** ** The forward pass: cost and sampling *)

Section ForwardCostFacts.
Context `{Torch} `{Collaborators}.

(** A cell appends a cost only when no weights are given and the flag is
    set. *)
Lemma cell_step_keeps_cost (self : TinyNetworkProxyless) (weights : option tensor)
  (hardwts : tensor) (st st' : pass_state) (cell : Cell) :
  cell_step self weights hardwts st cell = Some st' ->
  is_None weights && const self = false ->
  ps_full_cost st' = ps_full_cost st.
Proof.
  unfold cell_step, select_branch. intros Hstep Hoff.
  destruct (is_SearchCell cell), weights as [w|], (const self);
    simpl in *; try discriminate.
  - destruct (max_index w); simpl in Hstep; [|discriminate].
    now injection Hstep as <-.
  - destruct (max_index w); simpl in Hstep; [|discriminate].
    now injection Hstep as <-.
  - now injection Hstep as <-.
  - now injection Hstep as <-.
  - now injection Hstep as <-.
  - now injection Hstep as <-.
Qed.

Lemma run_cells_keeps_cost (self : TinyNetworkProxyless) (weights : option tensor)
  (hardwts : tensor) (cs : list Cell) : forall st st',
  run_cells self weights hardwts cs st = Some st' ->
  is_None weights && const self = false ->
  ps_full_cost st' = ps_full_cost st.
Proof.
  induction cs as [|cell cs IH]; intros st st' Hrun Hoff; simpl in Hrun.
  - now injection Hrun as <-.
  - destruct (cell_step self weights hardwts st cell) as [st1|] eqn:Hstep; [|discriminate].
    rewrite (IH st1 st' Hrun Hoff).
    now apply (cell_step_keeps_cost self weights hardwts st st1 cell).
Qed.

(** X11: when the cost-accumulation flag is off, a forward call that
    returns reports the total cost 0, with or without external weights. *)
Theorem forward_cost_zero_without_flag (fuel : nat) (self : TinyNetworkProxyless)
  (inputs : feature) (weights : option tensor) (g : rng)
  (out logits : feature) (cost : fval) (g' : rng) :
  const self = false ->
  forward fuel self inputs weights g = Returned (out, logits, cost, g') ->
  cost = fzero.
Proof.
  intros Hoff. unfold forward.
  destruct (forward_sample fuel self weights g) as [[[hardwts index] g1]| |];
    try discriminate.
  destruct (run_cells _ _ _ _ _) as [st|] eqn:Hrun; [|discriminate].
  apply run_cells_keeps_cost in Hrun; [|rewrite Hoff; apply andb_false_r].
  intros Hret. injection Hret as _ _ <- _. simpl in Hrun. now rewrite Hrun.
Qed.

Lemma fadd_nonneg (x y : fval) : nonneg_cost x -> nonneg_cost y -> nonneg_cost (fadd x y).
Proof.
  destruct x as [a| | |], y as [b| | |]; simpl; try tauto.
  intros Ha Hb. rewrite Qred_correct.
  rewrite <- (Qplus_0_r 0). now apply Qplus_le_compat.
Qed.

Lemma fsum_nonneg (costs : list fval) : forall acc,
  Forall nonneg_cost costs -> nonneg_cost acc ->
  nonneg_cost (fold_left fadd costs acc).
Proof.
  induction costs as [|x costs IH]; intros acc Hall Hacc; simpl; [exact Hacc|].
  inversion Hall as [|? ? Hx Hall']; subst.
  apply IH; [exact Hall' | now apply fadd_nonneg].
Qed.

Lemma run_cells_costs_nonneg (self : TinyNetworkProxyless) (weights : option tensor)
  (hardwts : tensor) (cs : list Cell) :
  costs_nonnegative ->
  forall st st',
  run_cells self weights hardwts cs st = Some st' ->
  Forall nonneg_cost (ps_full_cost st) ->
  Forall nonneg_cost (ps_full_cost st').
Proof.
  intros Hcosts.
  induction cs as [|cell cs IH]; intros st st' Hrun Hall; simpl in Hrun.
  - now injection Hrun as <-.
  - destruct (cell_step self weights hardwts st cell) as [st1|] eqn:Hstep; [|discriminate].
    apply (IH st1 st' Hrun).
    unfold cell_step in Hstep.
    destruct (select_branch cell weights (const self)).
    + now injection Hstep as <-.
    + pose proof (Hcosts cell (ps_feature st) hardwts (ps_index st)) as Hc.
      destruct (forward_gdas_const _ _ _ _) as [feature' cost].
      injection Hstep as <-. simpl in *.
      apply Forall_app. split; [exact Hall|]. constructor; [exact Hc | constructor].
    + destruct weights as [w|]; simpl in Hstep; [|discriminate].
      destruct (max_index w); simpl in Hstep; [|discriminate].
      now injection Hstep as <-.
    + now injection Hstep as <-.
Qed.

(** X13: when every cost a cell reports is not negative (a finite value
    from 0 up, or plus infinity), the total cost a forward call returns is
    not negative either: it is never below 0 and never not-a-number. *)
Theorem forward_cost_nonnegative (fuel : nat) (self : TinyNetworkProxyless)
  (inputs : feature) (weights : option tensor) (g : rng)
  (out logits : feature) (cost : fval) (g' : rng) :
  costs_nonnegative ->
  forward fuel self inputs weights g = Returned (out, logits, cost, g') ->
  nonneg_cost cost.
Proof.
  intros Hcosts. unfold forward.
  destruct (forward_sample fuel self weights g) as [[[hardwts index] g1]| |];
    try discriminate.
  destruct (run_cells _ _ _ _ _) as [st|] eqn:Hrun; [|discriminate].
  apply (run_cells_costs_nonneg _ _ _ _ Hcosts) in Hrun; [|constructor].
  intros Hret. injection Hret as _ _ <- _.
  apply (fsum_nonneg _ fzero Hrun). simpl. apply Qle_refl.
Qed.

Lemma run_cells_set_tau (self : TinyNetworkProxyless) (t : Z)
  (weights : option tensor) (hardwts : tensor) (cs : list Cell) : forall st,
  run_cells (set_tau self t) weights hardwts cs st
    = run_cells self weights hardwts cs st.
Proof.
  induction cs as [|cell cs IH]; intros st; simpl; [reflexivity|].
  change (cell_step (set_tau self t) weights hardwts st cell)
    with (cell_step self weights hardwts st cell).
  destruct (cell_step self weights hardwts st cell); [apply IH | reflexivity].
Qed.

(** X14: the temperature is stored and read back, and nothing else depends
    on it: setting it changes neither what [forward] computes (with the same
    generator state), nor the decoded genotype, nor the weights and the
    architecture parameters. *)
Theorem set_tau_only_sets_tau (self : TinyNetworkProxyless) (t : Z) :
  get_tau (set_tau self t) = t /\
  (forall fuel inputs weights g,
     forward fuel (set_tau self t) inputs weights g
       = forward fuel self inputs weights g) /\
  (forall w, genotype (set_tau self t) w = genotype self w) /\
  get_weights (set_tau self t) = get_weights self /\
  get_alphas (set_tau self t) = get_alphas self.
Proof.
  split; [reflexivity | split; [|split; [|split]]]; try reflexivity.
  intros fuel inputs weights g. unfold forward.
  change (forward_sample fuel (set_tau self t) weights g)
    with (forward_sample fuel self weights g).
  destruct (forward_sample fuel self weights g) as [[[hardwts index] g1]| |];
    try reflexivity.
  simpl. now rewrite run_cells_set_tau.
Qed.

End ForwardCostFacts.

(** ** Successive calls of [sample_weights] *)

Section SampleWeightsFacts.
Context `{Torch}.

Lemma sample_weights_loop_add fuel A (n m : nat) : forall acc g,
  sample_weights_loop fuel A (n + m) acc g =
    match sample_weights_loop fuel A n acc g with
    | Returned (ms, g1) => sample_weights_loop fuel A m ms g1
    | Raised => Raised
    | Running => Running
    end.
Proof.
  induction n as [|n IH]; intros acc g; [reflexivity|].
  change (S n + m)%nat with (S (n + m)). cbn [sample_weights_loop].
  destruct (sample fuel A g) as [[s g1]| |]; [apply IH | reflexivity | reflexivity].
Qed.

Lemma sample_weights_loop_acc fuel A (n : nat) : forall acc g,
  sample_weights_loop fuel A n acc g =
    outcome_map (fun r => (acc ++ fst r, snd r)) (sample_weights_loop fuel A n [] g).
Proof.
  induction n as [|n IH]; intros acc g; cbn [sample_weights_loop].
  - simpl. now rewrite app_nil_r.
  - destruct (sample fuel A g) as [[s g1]| |]; [|reflexivity|reflexivity].
    rewrite (IH (acc ++ [s_one_h s])), (IH ([] ++ [s_one_h s])).
    destruct (sample_weights_loop fuel A n [] g1) as [[ms g2]| |]; simpl;
      [|reflexivity|reflexivity].
    now rewrite <- app_assoc.
Qed.

(** X15: asking [sample_weights] for [n + m] matrices is asking for [n]
    and then for [m] from the generator state the first call left: the
    longer list starts with the shorter one. *)
Theorem sample_weights_add (fuel : nat) (A : tensor) (n m : Z) (g : rng) :
  (0 <= n)%Z -> (0 <= m)%Z ->
  sample_weights fuel A (n + m) g =
    match sample_weights fuel A n g with
    | Returned (ms, g1) =>
        outcome_map (fun r => (ms ++ fst r, snd r)) (sample_weights fuel A m g1)
    | Raised => Raised
    | Running => Running
    end.
Proof.
  intros Hn Hm. unfold sample_weights.
  rewrite Z2Nat.inj_add by assumption.
  rewrite sample_weights_loop_add.
  destruct (sample_weights_loop fuel A (Z.to_nat n) [] g) as [[ms g1]| |];
    [|reflexivity|reflexivity].
  apply sample_weights_loop_acc.
Qed.

End SampleWeightsFacts.

(** ** The further properties at work on the demo networks *)

Lemma construct_cell_stack_witness :
  is_SearchCell <$> cells demo_net = negb <$> layer_reductions 1 /\
  length (cells demo_net) = (3 * Z.to_nat 1 + 2)%nat /\
  _Layer demo_net = length (cells demo_net).
Proof.
  eapply (@construct_cell_stack demo_torch demo_cells 8 1 3 10
            ["none"; "skip_connect"; "nor_conv_3x3"] false true 32 0%nat 5%nat
            demo_net).
  vm_compute. reflexivity.
Defined.

Lemma construct_needs_search_cell_witness :
  layer_plan 8 0 32 = [(16%Z, true, size_div 32 2); (32%Z, true, size_div 32 4)] /\
  @construct demo_torch demo_cells 8 0 3 10
    ["none"; "skip_connect"; "nor_conv_3x3"] false true 32 0%nat 5%nat = None.
Proof.
  apply (@construct_needs_search_cell demo_torch demo_cells 8 0 3 10
           ["none"; "skip_connect"; "nor_conv_3x3"] false true 32 0%nat 5%nat).
  lia.
Defined.

Lemma construct_widths_witness :
  Forall cell_keeps_plan_width (cells demo_net) /\
  (exists ps, lastact demo_net = [BatchNorm2d (8 * 4) ps; ReLU]) /\
  (exists ps, classifier demo_net = Linear (8 * 4) 10 ps).
Proof.
  eapply (@construct_widths demo_torch demo_cells 8 1 3 10
            ["none"; "skip_connect"; "nor_conv_3x3"] false true 32 0%nat 5%nat
            demo_net).
  - split; intros a; reflexivity.
  - vm_compute. reflexivity.
Defined.

Lemma get_weights_partition_witness :
  get_weights demo_net ++ (p_id <$> get_alphas demo_net) = seq 0 (34 - 0) /\
  NoDup (get_weights demo_net ++ (p_id <$> get_alphas demo_net)).
Proof.
  eapply (@get_weights_partition demo_torch demo_cells 8 1 3 10
            ["none"; "skip_connect"; "nor_conv_3x3"] false true 32 0%nat 5%nat
            demo_net 34%nat).
  vm_compute. reflexivity.
Defined.

(** The sparse network has a map with the key ["1<-0"] only: decoding it
    fails at the edge [2<-0]. *)
Lemma genotype_missing_edge_witness :
  genotype sparse_net None = None.
Proof.
  apply (genotype_missing_edge sparse_net None 2 0).
  - replace (max_nodes sparse_net) with 3%Z by (vm_compute; reflexivity). lia.
  - lia.
  - vm_compute. reflexivity.
Defined.

(** An override with a single row: the edge [2<-0] is mapped to row 1. *)
Lemma genotype_bad_row_witness :
  genotype demo_net (Some [[Finite 1; Finite 0; Finite 0]]) = None.
Proof.
  apply (genotype_bad_row demo_net (Some [[Finite 1; Finite 0; Finite 0]])
           (demo_edge2index 3) 2 0 1%nat).
  - replace (max_nodes demo_net) with 3%Z by (vm_compute; reflexivity). lia.
  - lia.
  - vm_compute. reflexivity.
  - vm_compute. reflexivity.
  - left. simpl. lia.
Defined.

Lemma genotype_total_witness :
  exists gs, genotype demo_net None = Some gs.
Proof.
  apply (genotype_total demo_net None).
  exists (demo_edge2index 3). split; [vm_compute; reflexivity|].
  replace (max_nodes demo_net) with 3%Z by (vm_compute; reflexivity).
  intros i j Hi Hj.
  assert (Hcases : ((i = 1 /\ j = 0) \/ (i = 2 /\ j = 0) \/ (i = 2 /\ j = 1))%Z) by lia.
  destruct Hcases as [[-> ->] | [[-> ->] | [-> ->]]].
  - exists 0%nat, [Finite (1 # 200); Finite (1 # 200); Finite (1 # 200)].
    split; [vm_compute; reflexivity | split; [vm_compute; reflexivity |
      split; [discriminate | vm_compute; lia]]].
  - exists 1%nat, [Finite (1 # 200); Finite (1 # 200); Finite (1 # 200)].
    split; [vm_compute; reflexivity | split; [vm_compute; reflexivity |
      split; [discriminate | vm_compute; lia]]].
  - exists 2%nat, [Finite (1 # 200); Finite (1 # 200); Finite (1 # 200)].
    split; [vm_compute; reflexivity | split; [vm_compute; reflexivity |
      split; [discriminate | vm_compute; lia]]].
Defined.

Lemma sample_index_round_trip_witness :
  exists s g',
    @sample demo_torch 3 (p_data (arch_parameters demo_net)) 4%nat = Returned (s, g') /\
    length (s_index s) = length (p_data (arch_parameters demo_net)) /\
    (forall r c row, s_index s !! r = Some c ->
       p_data (arch_parameters demo_net) !! r = Some row -> (c < length row)%nat) /\
    max_index (s_one_h s) = Some (s_index s) /\
    max_index (s_hardwts s) = Some (s_index s).
Proof.
  eexists _, _. split; [vm_compute; reflexivity|].
  eapply (@sample_index_round_trip demo_torch 3%nat
            (p_data (arch_parameters demo_net)) 4%nat).
  vm_compute. reflexivity.
Defined.

(** The draw from generator state 4 is [1; 2; 0]: the edge [2<-1], row 2,
    drew column 0, the first candidate. *)
Lemma genotype_of_sample_witness :
  exists entry name,
    [[("skip_connect", 0%Z)]; [("nor_conv_3x3", 0%Z); ("none", 1%Z)]]
      !! Z.to_nat (2 - 1) = Some entry /\
    entry !! Z.to_nat 1 = Some (name, 1%Z) /\
    op_names demo_net !! 0%nat = Some name.
Proof.
  eapply (@genotype_of_sample demo_torch demo_net 3%nat
            (p_data (arch_parameters demo_net)) 4%nat _ _ _
            (demo_edge2index 3) 2 1 2%nat 0%nat).
  - vm_compute. reflexivity.
  - vm_compute. reflexivity.
  - vm_compute. reflexivity.
  - vm_compute. reflexivity.
  - vm_compute. reflexivity.
  - replace (max_nodes demo_net) with 3%Z by (vm_compute; reflexivity). lia.
  - lia.
Defined.

Lemma forward_cost_zero_without_flag_witness :
  exists out logits g',
    @forward demo_torch demo_cells 3 plain_net 0%Z None 1%nat
      = Returned (out, logits, fzero, g').
Proof.
  assert (Hret : exists cost,
            @forward demo_torch demo_cells 3 plain_net 0%Z None 1%nat
              = Returned (47%Z, 50%Z, cost, 4%nat)).
  { eexists. vm_compute. reflexivity. }
  destruct Hret as [cost Hret].
  exists 47%Z, 50%Z, 4%nat. rewrite Hret.
  rewrite (@forward_cost_zero_without_flag demo_torch demo_cells 3%nat plain_net
             0%Z None 1%nat 47%Z 50%Z cost 4%nat);
    [reflexivity | vm_compute; reflexivity | exact Hret].
Defined.

(** The demo cells report the cost 2 each; the three of them sum to 6. *)
Lemma forward_cost_nonnegative_witness :
  nonneg_cost (Finite 6).
Proof.
  apply (@forward_cost_nonnegative demo_torch demo_cells 3%nat demo_net 0%Z None
           1%nat 47%Z 50%Z (Finite 6) 4%nat).
  - intros cell x w index. simpl. discriminate.
  - vm_compute. reflexivity.
Defined.

Lemma sample_weights_add_witness :
  @sample_weights demo_torch 3 (p_data (arch_parameters demo_net)) (1 + 1) 4%nat =
    match @sample_weights demo_torch 3 (p_data (arch_parameters demo_net)) 1 4%nat with
    | Returned (ms, g1) =>
        outcome_map (fun r => (ms ++ fst r, snd r))
          (@sample_weights demo_torch 3 (p_data (arch_parameters demo_net)) 1 g1)
    | Raised => Raised
    | Running => Running
    end.
Proof.
  apply (@sample_weights_add demo_torch 3%nat (p_data (arch_parameters demo_net))
           1 1 4%nat); lia.
Defined.
